(** * Metrics system: counters, gauges and the registry

    A shallow embedding of the Go package [metrics] of
    phase1/01-metrics-system (the metric interface, the sentinel errors,
    [Counter], [Gauge] and [Registry]) and the properties of its registry.

    Modelling choices, all taken from the source:
    - [int64] is a [Z] with two's complement wrap-around written out;
    - [float64] is the kernel's binary64 [float];
    - [*Counter] and [*Gauge] are pointers into a store of objects, nil or
      the address of an object, so that the registry, its callers and
      snapshots share instruments the way the Go pointers do; a method that
      reads a field through the nil pointer panics;
    - the map returned by [Snapshot] is an object of the same store: callers
      own a reference to it and may write through it;
    - [Registry.metrics] is never handed out, so the field is an optional
      finite map ([None] is Go's nil map);
    - [sync.RWMutex] serialises the registry's methods and the atomics
      serialise the instruments'; every method is one step on the state. *)

From Stdlib Require Import ZArith String.
From Corelib Require Import PrimFloat.
From stdpp Require Import gmap strings list fin_maps.

Local Open Scope string_scope.
Local Open Scope Z_scope.

(** ** Machine integers *)

Module Int64.

Definition MinInt64 : Z := - 2 ^ 63.
Definition MaxInt64 : Z := 2 ^ 63 - 1.

Definition in_range (z : Z) : Prop := MinInt64 <= z <= MaxInt64.

(** Two's complement reduction of a mathematical integer to [int64]. *)
Definition wrap (z : Z) : Z := (z + 2 ^ 63) mod 2 ^ 64 - 2 ^ 63.

(** [a + b] on [int64] operands. *)
Definition add (a b : Z) : Z := wrap (a + b).

End Int64.

(** ** Errors *)

(** An [error] value: one of the three package-level sentinels made by
    [errors.New], or a value made by [fmt.Errorf], either from a plain
    message or wrapping another error with the verb [%w] followed by
    [": %s"]. *)
Inductive error : Type :=
| ErrDuplicateMetric
| ErrMetricNotFound
| ErrInvalidMetricName
| Errorf (msg : string)
| Errorf_w (wrapped : error) (arg : string).

#[global] Instance error_eq_dec : EqDecision error.
Proof. solve_decision. Defined.

(** [err.Error()] *)
Fixpoint Error (err : error) : string :=
  match err with
  | ErrDuplicateMetric => "metric with this name already exists"
  | ErrMetricNotFound => "metric not found"
  | ErrInvalidMetricName => "metric name cannot be empty"
  | Errorf msg => msg
  | Errorf_w wrapped arg => Error wrapped ++ ": " ++ arg
  end.

(** [errors.Is(err, target)]: identity along the [Unwrap] chain. *)
Fixpoint errors_Is (err target : error) : bool :=
  if decide (err = target) then true
  else match err with
       | Errorf_w wrapped _ => errors_Is wrapped target
       | _ => false
       end.

(** ** The interface [Metric] and its types *)

Definition MetricType : Type := Z.

Definition TypeCounter : MetricType := 0 + 1.
Definition TypeGauge : MetricType := 1 + 1.

Definition MetricType_String (t : MetricType) : string :=
  if decide (t = TypeCounter) then "counter"
  else if decide (t = TypeGauge) then "gauge"
  else "unknown".

(** A value of type [interface{}] as the package produces and its tests
    store them: the dynamic type and the payload. *)
Inductive value : Type :=
| Int64Val (n : Z)
| Float64Val (f : float)
| StringVal (s : string).

(** ** The store *)

Definition loc : Type := positive.

(** A pointer or a map reference: nil, or the address of an object. *)
Inductive ptr : Type :=
| NilPtr
| Addr (l : loc).

Arguments Addr l%_positive.

#[global] Instance ptr_eq_dec : EqDecision ptr.
Proof. solve_decision. Defined.

(** [type Counter struct { name string; value atomic.Int64 }] *)
Record Counter : Type := mkCounter {
  counter_name : string;
  counter_value : Z
}.

(** [type Gauge struct { name string; value atomic.Float64 }] *)
Record Gauge : Type := mkGauge {
  gauge_name : string;
  gauge_value : float
}.

Inductive object : Type :=
| CounterObj (c : Counter)
| GaugeObj (g : Gauge)
| SnapshotObj (entries : gmap string value).

Abbreviation store := (gmap loc object).

(** A value of the interface type [Metric]: nil, or a dynamic type together
    with a pointer. *)
Inductive Metric : Type :=
| NilMetric
| PtrCounter (c : ptr)
| PtrGauge (g : ptr).

#[global] Instance Metric_eq_dec : EqDecision Metric.
Proof. solve_decision. Defined.

(** What a call does: it returns, or it panics (nil pointer dereference,
    method call on the nil interface value, write to the nil map). *)
Inductive outcome (A : Type) : Type :=
| Returns (a : A)
| Panics.

Arguments Returns {A} a.
Arguments Panics {A}.

#[global] Instance outcome_bind : MBind outcome :=
  fun A B (k : A -> outcome B) (x : outcome A) =>
    match x with
    | Returns a => k a
    | Panics => Panics
    end.

(** [new(T)] / [&T{...}] / [make(map...)]: the object gets an address that
    was not in use. *)
Definition alloc (st : store) (o : object) : ptr * store :=
  let l := fresh (dom st) in (Addr l, <[l := o]> st).

(** [*p], and [*p = o] on an address in use. *)
Definition deref (st : store) (p : ptr) : outcome object :=
  match p with
  | NilPtr => Panics
  | Addr l =>
      match st !! l with
      | Some o => Returns o
      | None => Panics
      end
  end.

Definition assign (st : store) (p : ptr) (o : object) : outcome store :=
  match p with
  | NilPtr => Panics
  | Addr l => Returns (<[l := o]> st)
  end.

Definition deref_counter (st : store) (c : ptr) : outcome Counter :=
  o ← deref st c;
  match o with
  | CounterObj o => Returns o
  | _ => Panics
  end.

Definition deref_gauge (st : store) (g : ptr) : outcome Gauge :=
  o ← deref st g;
  match o with
  | GaugeObj o => Returns o
  | _ => Panics
  end.

(** ** go.uber.org/atomic, as one step each *)

Definition atomic_Int64_Load (st : store) (c : ptr) : outcome Z :=
  o ← deref_counter st c; Returns (counter_value o).

Definition atomic_Int64_Add (st : store) (c : ptr) (delta : Z) : outcome store :=
  o ← deref_counter st c;
  assign st c (CounterObj (mkCounter (counter_name o)
                             (Int64.add (counter_value o) delta))).

Definition atomic_Float64_Load (st : store) (g : ptr) : outcome float :=
  o ← deref_gauge st g; Returns (gauge_value o).

Definition atomic_Float64_Store (st : store) (g : ptr) (val : float) : outcome store :=
  o ← deref_gauge st g;
  assign st g (GaugeObj (mkGauge (gauge_name o) val)).

Definition atomic_Float64_Add (st : store) (g : ptr) (delta : float) : outcome store :=
  o ← deref_gauge st g;
  assign st g (GaugeObj (mkGauge (gauge_name o)
                           (PrimFloat.add (gauge_value o) delta))).

(** ** [Counter] *)

Definition NewCounter (name : string) (st : store) : ptr * store :=
  alloc st (CounterObj (mkCounter name 0)).

Definition Counter_Name (st : store) (c : ptr) : outcome string :=
  o ← deref_counter st c; Returns (counter_name o).

Definition Counter_Type (c : ptr) : MetricType := TypeCounter.

Definition Counter_Value (st : store) (c : ptr) : outcome value :=
  n ← atomic_Int64_Load st c; Returns (Int64Val n).

Definition Counter_Inc (st : store) (c : ptr) : outcome store :=
  atomic_Int64_Add st c 1.

Definition Counter_Add (st : store) (c : ptr) (delta : Z) : outcome store :=
  let delta := if delta <? 0 then 0 else delta in
  atomic_Int64_Add st c delta.

Definition Counter_Load (st : store) (c : ptr) : outcome Z :=
  atomic_Int64_Load st c.

(** ** [Gauge] *)

Definition NewGauge (name : string) (st : store) : ptr * store :=
  alloc st (GaugeObj (mkGauge name 0%float)).

Definition Gauge_Name (st : store) (g : ptr) : outcome string :=
  o ← deref_gauge st g; Returns (gauge_name o).

Definition Gauge_Type (g : ptr) : MetricType := TypeGauge.

Definition Gauge_Value (st : store) (g : ptr) : outcome value :=
  f ← atomic_Float64_Load st g; Returns (Float64Val f).

Definition Gauge_Set (st : store) (g : ptr) (val : float) : outcome store :=
  atomic_Float64_Store st g val.

Definition Gauge_Inc (st : store) (g : ptr) : outcome store :=
  atomic_Float64_Add st g 1%float.

Definition Gauge_Dec (st : store) (g : ptr) : outcome store :=
  atomic_Float64_Add st g (-1)%float.

Definition Gauge_Add (st : store) (g : ptr) (delta : float) : outcome store :=
  atomic_Float64_Add st g delta.

Definition Gauge_Load (st : store) (g : ptr) : outcome float :=
  atomic_Float64_Load st g.

(** ** Method calls through the interface [Metric] *)

Definition Metric_Name (st : store) (m : Metric) : outcome string :=
  match m with
  | NilMetric => Panics
  | PtrCounter c => Counter_Name st c
  | PtrGauge g => Gauge_Name st g
  end.

Definition Metric_Type (m : Metric) : outcome MetricType :=
  match m with
  | NilMetric => Panics
  | PtrCounter c => Returns (Counter_Type c)
  | PtrGauge g => Returns (Gauge_Type g)
  end.

Definition Metric_Value (st : store) (m : Metric) : outcome value :=
  match m with
  | NilMetric => Panics
  | PtrCounter c => Counter_Value st c
  | PtrGauge g => Gauge_Value st g
  end.

(** ** [Registry] *)

(** [type Registry struct { mu sync.RWMutex; metrics map[string]Metric }] *)
Record Registry : Type := mkRegistry {
  metrics : option (gmap string Metric)
}.

(** [var r Registry] *)
Definition zero_Registry : Registry := mkRegistry None.

(** [make(map[string]Metric, capacity)]: the hint is not observable. *)
Definition make_metrics (capacity : Z) : gmap string Metric := ∅.

Definition NewRegistry (capacity : Z) : Registry :=
  let capacity := if capacity <=? 0 then 16 else capacity in
  mkRegistry (Some (make_metrics capacity)).

Definition Register (st : store) (r : Registry) (metric : Metric)
  : outcome (option error * Registry) :=
  if decide (metric = NilMetric) then
    Returns (Some (Errorf "cannot register nil metric"), r)
  else
    name ← Metric_Name st metric;
    if decide (name = "") then Returns (Some ErrInvalidMetricName, r)
    else
      (* the map is made on first use *)
      let ms := match metrics r with
                | None => make_metrics 16
                | Some ms => ms
                end in
      match ms !! name with
      | Some _ => Returns (Some (Errorf_w ErrDuplicateMetric name), mkRegistry (Some ms))
      | None => Returns (None, mkRegistry (Some (<[name := metric]> ms)))
      end.

Definition Unregister (r : Registry) (name : string) : option error * Registry :=
  match metrics r with
  | None => (Some (Errorf_w ErrMetricNotFound name), r)
  | Some ms =>
      match ms !! name with
      | None => (Some (Errorf_w ErrMetricNotFound name), r)
      | Some _ => (None, mkRegistry (Some (delete name ms)))
      end
  end.

Definition Get (r : Registry) (name : string) : Metric * bool :=
  match metrics r with
  | None => (NilMetric, false)
  | Some ms =>
      match ms !! name with
      | Some metric => (metric, true)
      | None => (NilMetric, false)
      end
  end.

(** The body of the [range] loop of [Snapshot], as a fold over the entries:
    [snapshot[name] = metric.Value()]. *)
Definition snapshot_entry (st : store) (name : string) (metric : Metric)
    (acc : outcome (gmap string value)) : outcome (gmap string value) :=
  snapshot ← acc;
  v ← Metric_Value st metric;
  Returns (<[name := v]> snapshot).

(** The map under construction is local to the call until it is returned;
    returning it is what places it in the store. *)
Definition Snapshot (st : store) (r : Registry) : outcome (ptr * store) :=
  match metrics r with
  | None => Returns (alloc st (SnapshotObj ∅))
  | Some ms =>
      snapshot ← map_fold (snapshot_entry st) (Returns ∅) ms;
      Returns (alloc st (SnapshotObj snapshot))
  end.

Definition Len (r : Registry) : Z :=
  match metrics r with
  | None => 0
  | Some ms => Z.of_nat (size ms)
  end.

Definition Clear (r : Registry) : Registry :=
  match metrics r with
  | Some _ => mkRegistry (Some (make_metrics 16))
  | None => r
  end.

(** ** Callers *)

(** A caller writing through a snapshot it holds: [snapshot[key] = v]. *)
Definition Snapshot_assign (st : store) (s : ptr) (key : string) (v : value)
  : outcome store :=
  o ← deref st s;
  match o with
  | SnapshotObj entries => assign st s (SnapshotObj (<[key := v]> entries))
  | _ => Panics
  end.

(** A caller reading a snapshot it holds: [snapshot[key]] (a nil map reads
    as empty) and [len(snapshot)]. *)
Definition Snapshot_index (st : store) (s : ptr) (key : string)
  : outcome (option value) :=
  match s with
  | NilPtr => Returns None
  | Addr _ =>
      o ← deref st s;
      match o with
      | SnapshotObj entries => Returns (entries !! key)
      | _ => Panics
      end
  end.

Definition Snapshot_len (st : store) (s : ptr) : outcome Z :=
  match s with
  | NilPtr => Returns 0
  | Addr _ =>
      o ← deref st s;
      match o with
      | SnapshotObj entries => Returns (Z.of_nat (size entries))
      | _ => Panics
      end
  end.

(** The program state a registry lives in: the objects and the registry
    struct itself. *)
Record state : Type := mkState {
  heap : store;
  registry : Registry
}.

(** The calls of the package that can change the state. *)
Inductive call : Type :=
| CallNewCounter (name : string)
| CallNewGauge (name : string)
| CallCounterInc (c : ptr)
| CallCounterAdd (c : ptr) (delta : Z)
| CallGaugeSet (g : ptr) (val : float)
| CallGaugeInc (g : ptr)
| CallGaugeDec (g : ptr)
| CallGaugeAdd (g : ptr) (delta : float)
| CallRegister (metric : Metric)
| CallUnregister (name : string)
| CallClear
| CallSnapshot
| CallSnapshotAssign (s : ptr) (key : string) (v : value).

Definition on_heap (s : state) (o : outcome store) : outcome state :=
  st ← o; Returns (mkState st (registry s)).

Definition exec (c : call) (s : state) : outcome state :=
  match c with
  | CallNewCounter name => Returns (mkState (NewCounter name (heap s)).2 (registry s))
  | CallNewGauge name => Returns (mkState (NewGauge name (heap s)).2 (registry s))
  | CallCounterInc c => on_heap s (Counter_Inc (heap s) c)
  | CallCounterAdd c delta => on_heap s (Counter_Add (heap s) c delta)
  | CallGaugeSet g val => on_heap s (Gauge_Set (heap s) g val)
  | CallGaugeInc g => on_heap s (Gauge_Inc (heap s) g)
  | CallGaugeDec g => on_heap s (Gauge_Dec (heap s) g)
  | CallGaugeAdd g delta => on_heap s (Gauge_Add (heap s) g delta)
  | CallRegister metric =>
      res ← Register (heap s) (registry s) metric;
      Returns (mkState (heap s) res.2)
  | CallUnregister name => Returns (mkState (heap s) (Unregister (registry s) name).2)
  | CallClear => Returns (mkState (heap s) (Clear (registry s)))
  | CallSnapshot => on_heap s (res ← Snapshot (heap s) (registry s); Returns res.2)
  | CallSnapshotAssign l key v => on_heap s (Snapshot_assign (heap s) l key v)
  end.

Fixpoint run (cs : list call) (s : state) : outcome state :=
  match cs with
  | [] => Returns s
  | c :: cs => s' ← exec c s; run cs s'
  end.

(** The states a program can bring a registry to: it starts as the zero
    value or from [NewRegistry], in any store, and every call that returns
    leads to the next state. *)
Inductive reachable : state -> Prop :=
| reachable_zero (st : store) : reachable (mkState st zero_Registry)
| reachable_new (st : store) (capacity : Z) : reachable (mkState st (NewRegistry capacity))
| reachable_step (s s' : state) (c : call) :
    reachable s -> exec c s = Returns s' -> reachable s'.

(** ** Specification vocabulary *)

(** The name index of a registry, the nil map read as the empty one. *)
Definition entries (r : Registry) : gmap string Metric := default ∅ (metrics r).

(** Every indexed name maps to a non-nil metric that answers that name. *)
Definition registry_inv (st : store) (r : Registry) : Prop :=
  map_Forall (fun name m => m ≠ NilMetric ∧ Metric_Name st m = Returns name)
             (entries r).

(** The call is a write through the snapshot reference [l]. *)
Definition writes_snapshot (l : loc) (c : call) : Prop :=
  match c with
  | CallSnapshotAssign s _ _ => s = Addr l
  | _ => False
  end.

(** Two objects that are the same instrument: the name does not change,
    the value may. A snapshot map stays a snapshot map. *)
Definition same_instrument (o o' : object) : Prop :=
  match o, o' with
  | CounterObj c, CounterObj c' => counter_name c = counter_name c'
  | GaugeObj g, GaugeObj g' => gauge_name g = gauge_name g'
  | SnapshotObj _, SnapshotObj _ => True
  | _, _ => False
  end.

(** The later store still holds every object of the earlier one. *)
Definition store_le (st st' : store) : Prop :=
  ∀ q o, st !! q = Some o -> ∃ o', st' !! q = Some o' ∧ same_instrument o o'.

(** What [metric.Value()] yields, when it returns. *)
Definition read_value (st : store) (m : Metric) : option value :=
  match Metric_Value st m with
  | Returns v => Some v
  | Panics => None
  end.

(** Every metric of the index answers [Value()]. *)
Definition readable (st : store) (ms : gmap string Metric) : Prop :=
  map_Forall (fun _ m => is_Some (read_value st m)) ms.

(** How one call can change the store: not at all, by one allocation, or
    by one update in place that keeps the instrument's identity. *)
Inductive heap_step (c : call) (st : store) : store -> Prop :=
| heap_same : heap_step c st st
| heap_alloc (l : loc) (o : object) :
    st !! l = None -> heap_step c st (<[l := o]> st)
| heap_update (l : loc) (o o' : object) :
    st !! l = Some o -> same_instrument o o' ->
    (∀ snap, o = SnapshotObj snap -> writes_snapshot l c) ->
    heap_step c st (<[l := o']> st).

(** ** Vocabulary for programs of several calls *)

(** What one call adds to the counter behind [c]: [Inc] adds 1, [Add] its
    clamped delta, any other call nothing. *)
Definition counter_increment (c : ptr) (k : call) : Z :=
  match k with
  | CallCounterInc c' => if decide (c' = c) then 1 else 0
  | CallCounterAdd c' delta => if decide (c' = c) then Z.max delta 0 else 0
  | _ => 0
  end.

Definition increments (c : ptr) (cs : list call) : Z :=
  foldr (fun k acc => counter_increment c k + acc) 0 cs.

(** Two registries that index the same metrics under the same names. *)
Definition same_index (r1 r2 : Registry) : Prop := entries r1 = entries r2.

(** Two runs that end alike: both panic, or both return with the same
    store and the same index. *)
Definition same_end (a b : outcome state) : Prop :=
  match a, b with
  | Returns s1, Returns s2 =>
      heap s1 = heap s2 ∧ same_index (registry s1) (registry s2)
  | Panics, Panics => True
  | _, _ => False
  end.

(** The call returned. *)
Definition returns {A : Type} (x : outcome A) : Prop :=
  match x with
  | Returns _ => True
  | Panics => False
  end.

(** The [float64] of a small integer, reached from 0 by ones. *)
Definition float_of_Z (k : Z) : float :=
  match k with
  | Z0 => 0%float
  | Zpos p => Pos.iter (fun x => PrimFloat.add x 1%float) 0%float p
  | Zneg p => Pos.iter (fun x => PrimFloat.add x (-1)%float) 0%float p
  end.

(** How often a list of calls is [g.Inc()], how often [g.Dec()], and
    whether it leaves [g] to these two. *)
Definition gauge_incs (g : ptr) (cs : list call) : Z :=
  foldr (fun k acc => match k with
                      | CallGaugeInc g' => if decide (g' = g) then 1 + acc else acc
                      | _ => acc
                      end) 0 cs.

Definition gauge_decs (g : ptr) (cs : list call) : Z :=
  foldr (fun k acc => match k with
                      | CallGaugeDec g' => if decide (g' = g) then 1 + acc else acc
                      | _ => acc
                      end) 0 cs.

Definition sets_gauge (g : ptr) (k : call) : Prop :=
  match k with
  | CallGaugeSet g' _ | CallGaugeAdd g' _ => g' = g
  | _ => False
  end.

(** The pointer a call is made on, for the calls on an instrument. *)
Definition receiver (k : call) : option ptr :=
  match k with
  | CallCounterInc c | CallCounterAdd c _ => Some c
  | CallGaugeSet g _ | CallGaugeInc g | CallGaugeDec g | CallGaugeAdd g _ => Some g
  | _ => None
  end.

(** What one call does to the reading [x] of the gauge behind [g]. *)
Definition gauge_after (g : ptr) (k : call) (x : float) : float :=
  match k with
  | CallGaugeSet g' val => if decide (g' = g) then val else x
  | CallGaugeInc g' => if decide (g' = g) then PrimFloat.add x 1%float else x
  | CallGaugeDec g' => if decide (g' = g) then PrimFloat.add x (-1)%float else x
  | CallGaugeAdd g' delta => if decide (g' = g) then PrimFloat.add x delta else x
  | _ => x
  end.

(** ** States used as examples *)

(** A counter ["requests"] at the first location and a gauge ["temp"] at
    the second. *)
Definition example_heap : store :=
  (NewGauge "temp" (NewCounter "requests" ∅).2).2.

(** A registry that indexes both. *)
Definition example_registry : Registry :=
  mkRegistry (Some (<["temp" := PtrGauge (Addr 2)]> {["requests" := PtrCounter (Addr 1)]})).

(** * Properties *)

(** ** Machine integers *)

Lemma wrap_in_range (z : Z) : Int64.in_range z -> Int64.wrap z = z.
Proof.
  unfold Int64.in_range, Int64.wrap, Int64.MinInt64, Int64.MaxInt64.
  intros Hz. rewrite Z.mod_small; lia.
Qed.

Lemma wrap_range (z : Z) : Int64.in_range (Int64.wrap z).
Proof.
  unfold Int64.in_range, Int64.wrap, Int64.MinInt64, Int64.MaxInt64.
  pose proof (Z.mod_pos_bound (z + 2 ^ 63) (2 ^ 64)). lia.
Qed.

(** ** Errors *)

Lemma errors_Is_refl (e : error) : errors_Is e e = true.
Proof. destruct e; simpl; try done; by case_decide. Qed.

Lemma errors_Is_wrapped (e : error) (arg : string) :
  errors_Is (Errorf_w e arg) e = true.
Proof.
  simpl. destruct (decide (Errorf_w e arg = e)); [done | apply errors_Is_refl].
Qed.

(** ** The store: allocation and what calls preserve *)

Ltac unfold_bind := unfold mbind, outcome_bind in *.

Lemma deref_Returns (st : store) (p : ptr) (o : object) :
  deref st p = Returns o ↔ ∃ l, p = Addr l ∧ st !! l = Some o.
Proof.
  unfold deref. destruct p as [| l].
  - split; [done | by intros (l & ? & _)].
  - destruct (st !! l) as [o' |] eqn:Hl; split.
    + intros [= <-]. eauto.
    + intros (l' & [= <-] & Hl'). congruence.
    + done.
    + intros (l' & [= <-] & Hl'). congruence.
Qed.

Lemma deref_Addr (st : store) (l : loc) (o : object) :
  st !! l = Some o -> deref st (Addr l) = Returns o.
Proof. intros Hl. apply deref_Returns. eauto. Qed.

Lemma deref_counter_Returns (st : store) (c : ptr) (o : Counter) :
  deref_counter st c = Returns o ↔ ∃ l, c = Addr l ∧ st !! l = Some (CounterObj o).
Proof.
  unfold deref_counter. unfold_bind.
  destruct (deref st c) as [[o' | g | snap] |] eqn:Hd; split;
    try done; try (intros (l & -> & Hl); rewrite (deref_Addr _ _ _ Hl) in Hd; congruence).
  intros [= <-]. by apply deref_Returns.
Qed.

Lemma deref_gauge_Returns (st : store) (g : ptr) (o : Gauge) :
  deref_gauge st g = Returns o ↔ ∃ l, g = Addr l ∧ st !! l = Some (GaugeObj o).
Proof.
  unfold deref_gauge. unfold_bind.
  destruct (deref st g) as [[c | o' | snap] |] eqn:Hd; split;
    try done; try (intros (l & -> & Hl); rewrite (deref_Addr _ _ _ Hl) in Hd; congruence).
  intros [= <-]. by apply deref_Returns.
Qed.

Lemma deref_counter_Addr (st : store) (l : loc) (o : Counter) :
  st !! l = Some (CounterObj o) -> deref_counter st (Addr l) = Returns o.
Proof. intros Hl. apply deref_counter_Returns. eauto. Qed.

Lemma deref_gauge_Addr (st : store) (l : loc) (o : Gauge) :
  st !! l = Some (GaugeObj o) -> deref_gauge st (Addr l) = Returns o.
Proof. intros Hl. apply deref_gauge_Returns. eauto. Qed.

Lemma alloc_spec (st : store) (o : object) :
  ∃ l, alloc st o = (Addr l, <[l := o]> st) ∧ st !! l = None.
Proof. exists (fresh (dom st)). split; [done | apply not_elem_of_dom, is_fresh]. Qed.

Lemma deref_alloc (st : store) (o : object) :
  deref (alloc st o).2 (alloc st o).1 = Returns o.
Proof. destruct (alloc_spec st o) as (l & -> & _). apply deref_Addr, lookup_insert_eq. Qed.

Lemma atomic_Int64_Add_Returns (st st' : store) (c : ptr) (delta : Z) :
  atomic_Int64_Add st c delta = Returns st' ->
  ∃ l o, c = Addr l ∧ st !! l = Some (CounterObj o) ∧
         st' = <[l := CounterObj (mkCounter (counter_name o)
                                    (Int64.add (counter_value o) delta))]> st.
Proof.
  unfold atomic_Int64_Add. unfold_bind.
  destruct (deref_counter st c) as [o |] eqn:Hd; [| done].
  apply deref_counter_Returns in Hd as (l & -> & Hl). simpl.
  intros [= <-]. eauto.
Qed.

Lemma atomic_Float64_Store_Returns (st st' : store) (g : ptr) (val : float) :
  atomic_Float64_Store st g val = Returns st' ->
  ∃ l o, g = Addr l ∧ st !! l = Some (GaugeObj o) ∧
         st' = <[l := GaugeObj (mkGauge (gauge_name o) val)]> st.
Proof.
  unfold atomic_Float64_Store. unfold_bind.
  destruct (deref_gauge st g) as [o |] eqn:Hd; [| done].
  apply deref_gauge_Returns in Hd as (l & -> & Hl). simpl.
  intros [= <-]. eauto.
Qed.

Lemma atomic_Float64_Add_Returns (st st' : store) (g : ptr) (delta : float) :
  atomic_Float64_Add st g delta = Returns st' ->
  ∃ l o, g = Addr l ∧ st !! l = Some (GaugeObj o) ∧
         st' = <[l := GaugeObj (mkGauge (gauge_name o)
                                  (PrimFloat.add (gauge_value o) delta))]> st.
Proof.
  unfold atomic_Float64_Add. unfold_bind.
  destruct (deref_gauge st g) as [o |] eqn:Hd; [| done].
  apply deref_gauge_Returns in Hd as (l & -> & Hl). simpl.
  intros [= <-]. eauto.
Qed.

Lemma Snapshot_assign_Returns (st st' : store) (s : ptr) (key : string) (v : value) :
  Snapshot_assign st s key v = Returns st' ->
  ∃ l snap, s = Addr l ∧ st !! l = Some (SnapshotObj snap) ∧
            st' = <[l := SnapshotObj (<[key := v]> snap)]> st.
Proof.
  unfold Snapshot_assign. unfold_bind.
  destruct (deref st s) as [[| | snap] |] eqn:Hd; try done.
  apply deref_Returns in Hd as (l & -> & Hl). simpl.
  intros [= <-]. eauto.
Qed.

Lemma Snapshot_alloc (st st' : store) (r : Registry) (s : ptr) :
  Snapshot st r = Returns (s, st') ->
  ∃ snap, (s, st') = alloc st (SnapshotObj snap).
Proof.
  unfold Snapshot. unfold_bind. destruct (metrics r) as [ms |].
  - destruct (map_fold (snapshot_entry st) (Returns ∅) ms) as [snap |]; [| done].
    intros [= <- <-]. eauto.
  - intros [= <- <-]. eauto.
Qed.

(** A call that returns after one of the atomic updates: the lemma [inv]
    names the address and the object that was there. *)
Ltac heap_update_case Hexec inv :=
  match type of Hexec with
  | match ?call with _ => _ end = _ =>
      let st' := fresh "st'" in
      let Hcall := fresh "Hcall" in
      destruct call as [st' |] eqn:Hcall; [| done];
      injection Hexec as <-; simpl;
      apply inv in Hcall as (? & ? & -> & ? & ->);
      by eapply heap_update
  end.

Lemma exec_heap_step (c : call) (s s' : state) :
  exec c s = Returns s' -> heap_step c (heap s) (heap s').
Proof.
  destruct c; simpl; unfold on_heap; unfold_bind; intros Hexec.
  - injection Hexec as <-. apply heap_alloc, not_elem_of_dom, is_fresh.
  - injection Hexec as <-. apply heap_alloc, not_elem_of_dom, is_fresh.
  - heap_update_case Hexec atomic_Int64_Add_Returns.
  - heap_update_case Hexec atomic_Int64_Add_Returns.
  - heap_update_case Hexec atomic_Float64_Store_Returns.
  - heap_update_case Hexec atomic_Float64_Add_Returns.
  - heap_update_case Hexec atomic_Float64_Add_Returns.
  - heap_update_case Hexec atomic_Float64_Add_Returns.
  - destruct (Register (heap s) (registry s) metric) as [res |]; [| done].
    injection Hexec as <-. apply heap_same.
  - injection Hexec as <-. apply heap_same.
  - injection Hexec as <-. apply heap_same.
  - destruct (Snapshot (heap s) (registry s)) as [[l st'] |] eqn:Hsnap; [| done].
    injection Hexec as <-. simpl.
    apply Snapshot_alloc in Hsnap as [snap Hsnap].
    destruct (alloc_spec (heap s) (SnapshotObj snap)) as (l' & Halloc & Hl).
    rewrite Halloc in Hsnap. injection Hsnap as -> ->. by apply heap_alloc.
  - heap_update_case Hexec Snapshot_assign_Returns.
Qed.

Lemma same_instrument_refl (o : object) : same_instrument o o.
Proof. by destruct o. Qed.

Lemma store_le_refl (st : store) : store_le st st.
Proof. intros q o Hq. exists o. split; [done | apply same_instrument_refl]. Qed.

Create HintDb store_facts.

#[local] Hint Resolve same_instrument_refl store_le_refl : store_facts.

Lemma heap_step_store_le (c : call) (st st' : store) :
  heap_step c st st' -> store_le st st'.
Proof.
  intros [| l o Hl | l o o' Hl Hsame _]; [auto with store_facts | |]; intros q oq Hq.
  - exists oq. rewrite lookup_insert_ne by congruence. auto with store_facts.
  - destruct (decide (l = q)) as [<- | Hne].
    + exists o'. rewrite lookup_insert_eq. split; [done | congruence].
    + exists oq. rewrite lookup_insert_ne by done. auto with store_facts.
Qed.

Lemma exec_store_le (c : call) (s s' : state) :
  exec c s = Returns s' -> store_le (heap s) (heap s').
Proof. intros Hexec. eapply heap_step_store_le, exec_heap_step, Hexec. Qed.

Lemma store_le_Metric_Name (st st' : store) (m : Metric) (name : string) :
  store_le st st' -> Metric_Name st m = Returns name -> Metric_Name st' m = Returns name.
Proof.
  intros Hle. destruct m as [| c | g]; simpl; [done | |].
  - unfold Counter_Name. unfold_bind.
    destruct (deref_counter st c) as [o |] eqn:Hd; [| done]. intros [= <-].
    apply deref_counter_Returns in Hd as (l & -> & Hl).
    destruct (Hle l _ Hl) as ([o' | |] & Hl' & Hs); simpl in Hs; try done.
    by rewrite (deref_counter_Addr _ _ _ Hl'), Hs.
  - unfold Gauge_Name. unfold_bind.
    destruct (deref_gauge st g) as [o |] eqn:Hd; [| done]. intros [= <-].
    apply deref_gauge_Returns in Hd as (l & -> & Hl).
    destruct (Hle l _ Hl) as ([| o' |] & Hl' & Hs); simpl in Hs; try done.
    by rewrite (deref_gauge_Addr _ _ _ Hl'), Hs.
Qed.

(** ** The registry's methods, case by case *)

Lemma Get_entries (r : Registry) (name : string) :
  Get r name = match entries r !! name with
               | Some metric => (metric, true)
               | None => (NilMetric, false)
               end.
Proof. unfold Get, entries. destruct (metrics r); simpl; [done | by rewrite lookup_empty]. Qed.

Lemma Len_entries (r : Registry) : Len r = Z.of_nat (size (entries r)).
Proof. unfold Len, entries. destruct (metrics r); simpl; [done | by rewrite map_size_empty]. Qed.

Lemma Register_nil (st : store) (r : Registry) :
  Register st r NilMetric = Returns (Some (Errorf "cannot register nil metric"), r).
Proof. done. Qed.

Lemma Register_empty_name (st : store) (r : Registry) (m : Metric) :
  Metric_Name st m = Returns "" ->
  Register st r m = Returns (Some ErrInvalidMetricName, r).
Proof.
  intros Hname. unfold Register. destruct (decide (m = NilMetric)) as [-> | _]; [done |].
  by rewrite Hname.
Qed.

Lemma Register_duplicate (st : store) (r : Registry) (m : Metric) (name : string) :
  Metric_Name st m = Returns name -> name ≠ "" -> is_Some (entries r !! name) ->
  Register st r m = Returns (Some (Errorf_w ErrDuplicateMetric name), r).
Proof.
  intros Hname Hne [old Hold]. unfold Register.
  destruct (decide (m = NilMetric)) as [-> | _]; [done |].
  rewrite Hname. simpl. rewrite decide_False by done.
  unfold entries in Hold. destruct r as [[ms |]]; simpl in *.
  - by rewrite Hold.
  - by rewrite lookup_empty in Hold.
Qed.

Lemma Register_fresh_name (st : store) (r : Registry) (m : Metric) (name : string) :
  Metric_Name st m = Returns name -> name ≠ "" -> entries r !! name = None ->
  Register st r m = Returns (None, mkRegistry (Some (<[name := m]> (entries r)))).
Proof.
  intros Hname Hne Hfree. unfold Register.
  destruct (decide (m = NilMetric)) as [-> | _]; [done |].
  rewrite Hname. simpl. rewrite decide_False by done.
  unfold entries in *. destruct r as [[ms |]]; simpl in *.
  - by rewrite Hfree.
  - unfold make_metrics. by rewrite lookup_empty.
Qed.

(** Every way [Register] can return. *)
Lemma Register_returns (st : store) (r : Registry) (m : Metric)
    (res : option error * Registry) :
  Register st r m = Returns res ->
  (m = NilMetric ∧ res = (Some (Errorf "cannot register nil metric"), r)) ∨
  (m ≠ NilMetric ∧ Metric_Name st m = Returns "" ∧ res = (Some ErrInvalidMetricName, r)) ∨
  (∃ name, m ≠ NilMetric ∧ Metric_Name st m = Returns name ∧ name ≠ "" ∧
           is_Some (entries r !! name) ∧
           res = (Some (Errorf_w ErrDuplicateMetric name), r)) ∨
  (∃ name, m ≠ NilMetric ∧ Metric_Name st m = Returns name ∧ name ≠ "" ∧
           entries r !! name = None ∧
           res = (None, mkRegistry (Some (<[name := m]> (entries r))))).
Proof.
  intros Hreg. destruct (decide (m = NilMetric)) as [-> | Hm].
  { left. rewrite Register_nil in Hreg. by inversion Hreg. }
  right. destruct (Metric_Name st m) as [name |] eqn:Hname.
  2: { unfold Register in Hreg. rewrite decide_False in Hreg by done.
       by rewrite Hname in Hreg. }
  destruct (decide (name = "")) as [-> | Hne].
  { left. rewrite (Register_empty_name st r m Hname) in Hreg. by inversion Hreg. }
  right. destruct (entries r !! name) as [old |] eqn:Hlook.
  - left. exists name. rewrite (Register_duplicate st r m name) in Hreg by eauto.
    inversion Hreg. eauto 10.
  - right. exists name. rewrite (Register_fresh_name st r m name) in Hreg by eauto.
    inversion Hreg. eauto 10.
Qed.

Lemma Unregister_absent (r : Registry) (name : string) :
  entries r !! name = None ->
  Unregister r name = (Some (Errorf_w ErrMetricNotFound name), r).
Proof.
  unfold Unregister, entries. destruct (metrics r) as [ms |]; simpl; [| done].
  by intros ->.
Qed.

Lemma Unregister_present (r : Registry) (name : string) :
  is_Some (entries r !! name) ->
  Unregister r name = (None, mkRegistry (Some (delete name (entries r)))).
Proof.
  unfold Unregister, entries. intros [m Hm].
  destruct (metrics r) as [ms |]; simpl in *.
  - by rewrite Hm.
  - by rewrite lookup_empty in Hm.
Qed.

Lemma Clear_entries (r : Registry) : entries (Clear r) = ∅.
Proof. unfold Clear, entries. destruct r as [[ms |]]; simpl; [done | done]. Qed.

(** ** The invariant *)

Lemma registry_inv_store_le (st st' : store) (r : Registry) :
  store_le st st' -> registry_inv st r -> registry_inv st' r.
Proof.
  intros Hle Hinv name m Hm. destruct (Hinv name m Hm) as [Hnil Hname].
  split; [done | by eapply store_le_Metric_Name].
Qed.

Lemma registry_inv_empty (st : store) (r : Registry) :
  entries r = ∅ -> registry_inv st r.
Proof. unfold registry_inv. intros ->. apply map_Forall_empty. Qed.

Lemma Register_inv (st : store) (r : Registry) (m : Metric)
    (res : option error * Registry) :
  registry_inv st r -> Register st r m = Returns res -> registry_inv st res.2.
Proof.
  intros Hinv Hreg.
  destruct (Register_returns st r m res Hreg)
    as [[_ ->] | [(_ & _ & ->) | [(name & _ & _ & _ & _ & ->) |
        (name & Hm & Hname & _ & _ & ->)]]]; try done.
  unfold registry_inv, entries. simpl. by apply map_Forall_insert_2.
Qed.

Lemma Unregister_inv (st : store) (r : Registry) (name : string) :
  registry_inv st r -> registry_inv st (Unregister r name).2.
Proof.
  intros Hinv. destruct (entries r !! name) as [m |] eqn:Hlook.
  - rewrite Unregister_present by eauto. unfold registry_inv, entries. simpl.
    by apply map_Forall_delete.
  - by rewrite Unregister_absent.
Qed.

Lemma exec_inv (c : call) (s s' : state) :
  registry_inv (heap s) (registry s) -> exec c s = Returns s' ->
  registry_inv (heap s') (registry s').
Proof.
  intros Hinv Hexec. pose proof (exec_store_le c s s' Hexec) as Hle.
  destruct c; simpl in Hexec; unfold on_heap, mbind, outcome_bind in Hexec;
    try (match type of Hexec with
         | match ?x with _ => _ end = _ => destruct x eqn:Hcall; [| done]
         end);
    injection Hexec as <-; simpl in *;
    try (by eapply registry_inv_store_le).
  - by eapply Register_inv.
  - by apply Unregister_inv.
  - apply registry_inv_empty, Clear_entries.
Qed.

Lemma reachable_inv (s : state) :
  reachable s -> registry_inv (heap s) (registry s).
Proof.
  induction 1 as [st | st capacity | s s' c _ IH Hexec].
  - by apply registry_inv_empty.
  - by apply registry_inv_empty.
  - by eapply exec_inv.
Qed.

Lemma run_reachable (cs : list call) (s s' : state) :
  reachable s -> run cs s = Returns s' -> reachable s'.
Proof.
  revert s. induction cs as [| c cs IH]; intros s Hs; simpl.
  - by intros [= <-].
  - unfold mbind, outcome_bind. destruct (exec c s) as [s1 |] eqn:Hexec; [| done].
    apply IH. by eapply reachable_step.
Qed.

(** ** Snapshot *)

Lemma omap_total_lookup {A B : Type} (f : A -> option B) (ms : gmap string A)
    (name : string) :
  map_Forall (fun _ x => is_Some (f x)) ms ->
  is_Some (omap f ms !! name) ↔ is_Some (ms !! name).
Proof.
  intros Hall. rewrite lookup_omap. destruct (ms !! name) as [x |] eqn:Hx; simpl.
  - split; [eauto | intros _; by apply (Hall name x)].
  - done.
Qed.

Lemma omap_total_size {A B : Type} (f : A -> option B) (ms : gmap string A) :
  map_Forall (fun _ x => is_Some (f x)) ms -> size (omap f ms) = size ms.
Proof.
  intros Hall. rewrite <- !(size_dom (D := gset string)). f_equal.
  apply set_eq. intros name. rewrite !elem_of_dom. by apply omap_total_lookup.
Qed.

Section snapshot_of_a_store.

Variable st : store.

Lemma read_value_Returns (m : Metric) (v : value) :
  Metric_Value st m = Returns v -> read_value st m = Some v.
Proof. unfold read_value. by intros ->. Qed.

Lemma read_value_Panics (m : Metric) :
  Metric_Value st m = Panics -> read_value st m = None.
Proof. unfold read_value. by intros ->. Qed.

(** The loop of [Snapshot] returns exactly when every [Value()] call does,
    and then with one entry per indexed name. *)
Lemma snapshot_fold (ms : gmap string Metric) :
  match map_fold (snapshot_entry st) (Returns ∅) ms with
  | Returns snap => readable st ms ∧ snap = omap (read_value st) ms
  | Panics => ¬ readable st ms
  end.
Proof.
  apply (map_fold_weak_ind (fun res (ms : gmap string Metric) =>
    match res with
    | Returns snap => readable st ms ∧ snap = omap (read_value st) ms
    | Panics => ¬ readable st ms
    end)).
  - split; [apply map_Forall_empty | by rewrite omap_empty].
  - intros name m ms' res Hfree IH. unfold snapshot_entry, mbind, outcome_bind.
    destruct res as [snap |].
    + destruct IH as [Hall ->]. destruct (Metric_Value st m) as [v |] eqn:Hv.
      * split.
        -- apply map_Forall_insert_2; [| done]. by rewrite (read_value_Returns m v).
        -- symmetry. by apply omap_insert_Some, read_value_Returns.
      * intros Hall'. apply map_Forall_insert_1_1 in Hall'.
        rewrite read_value_Panics in Hall' by done. by destruct Hall'.
    + intros Hall'. apply IH. by eapply map_Forall_insert_1_2.
Qed.

Lemma registry_inv_readable (r : Registry) :
  registry_inv st r -> readable st (entries r).
Proof.
  intros Hinv name m Hm. destruct (Hinv name m Hm) as [_ Hname].
  unfold read_value. destruct m as [| c | g]; simpl in *; [done | |].
  - unfold Counter_Name, Counter_Value, atomic_Int64_Load in *. unfold_bind.
    by destruct (deref_counter st c).
  - unfold Gauge_Name, Gauge_Value, atomic_Float64_Load in *. unfold_bind.
    by destruct (deref_gauge st g).
Qed.

(** What [Snapshot] does whenever it returns. *)
Lemma Snapshot_returns (st' : store) (r : Registry) (s : ptr) :
  Snapshot st r = Returns (s, st') ->
  readable st (entries r) ∧
  ∃ l, s = Addr l ∧ st !! l = None ∧
       st' = <[l := SnapshotObj (omap (read_value st) (entries r))]> st.
Proof.
  unfold Snapshot, entries. destruct (metrics r) as [ms |]; simpl.
  - pose proof (snapshot_fold ms) as Hfold. unfold mbind, outcome_bind.
    destruct (map_fold (snapshot_entry st) (Returns ∅) ms) as [snap |]; [| done].
    destruct Hfold as [Hall ->]. intros [= <- <-].
    split; [done |]. eexists. split; [done |].
    split; [apply not_elem_of_dom, is_fresh | done].
  - intros [= <- <-]. split; [apply map_Forall_empty |].
    eexists. split; [done |].
    split; [apply not_elem_of_dom, is_fresh | by rewrite omap_empty].
Qed.

(** [Snapshot] returns on every registry whose entries can be read. *)
Lemma Snapshot_total (r : Registry) :
  readable st (entries r) -> ∃ s st', Snapshot st r = Returns (s, st').
Proof.
  unfold Snapshot, entries. destruct (metrics r) as [ms |]; simpl; [| eauto].
  intros Hall. pose proof (snapshot_fold ms) as Hfold.
  unfold mbind, outcome_bind.
  destruct (map_fold (snapshot_entry st) (Returns ∅) ms) as [snap |]; [eauto | done].
Qed.

(** Go leaves the order in which [range] visits a map unspecified.  The
    loop of [Snapshot] writes each name once, so every order builds the
    same map (or panics alike). *)
Lemma snapshot_entry_comm (k1 k2 : string) (m1 m2 : Metric)
    (acc : outcome (gmap string value)) :
  k1 ≠ k2 ->
  snapshot_entry st k1 m1 (snapshot_entry st k2 m2 acc)
  = snapshot_entry st k2 m2 (snapshot_entry st k1 m1 acc).
Proof.
  intros Hne. unfold snapshot_entry. unfold_bind.
  destruct acc as [snap |]; [| done].
  destruct (Metric_Value st m1) as [v1 |], (Metric_Value st m2) as [v2 |]; try done.
  by rewrite insert_insert_ne.
Qed.

Lemma Snapshot_order_irrelevant (ms : gmap string Metric)
    (order : list (string * Metric)) :
  order ≡ₚ map_to_list ms ->
  foldr (uncurry (snapshot_entry st)) (Returns ∅) order
  = map_fold (snapshot_entry st) (Returns ∅) ms.
Proof.
  intros Hperm. rewrite map_fold_foldr. symmetry.
  apply (foldr_permutation (=) (uncurry (snapshot_entry st)) (Returns ∅)
           (map_to_list ms) order); [| by symmetry].
  intros j1 [k1 m1] j2 [k2 m2] acc Hj H1 H2. simpl.
  apply snapshot_entry_comm. intros ->. apply Hj.
  apply (NoDup_lookup (map_to_list ms).*1 j1 j2 k2).
  - apply NoDup_fst_map_to_list.
  - by rewrite list_lookup_fmap, H1.
  - by rewrite list_lookup_fmap, H2.
Qed.

End snapshot_of_a_store.

(** A call that is not a write through [l] leaves the map at [l] as it is. *)
Lemma exec_snapshot_kept (c : call) (s s' : state) (l : loc)
    (snap : gmap string value) :
  ¬ writes_snapshot l c -> exec c s = Returns s' ->
  heap s !! l = Some (SnapshotObj snap) -> heap s' !! l = Some (SnapshotObj snap).
Proof.
  intros Hw Hexec Hl.
  destruct (exec_heap_step c s s' Hexec) as [| l' o Hfresh | l' o o' Hl' _ Hsnap].
  - done.
  - rewrite lookup_insert_ne; [done | congruence].
  - destruct (decide (l' = l)) as [-> | Hne].
    + destruct Hw. apply (Hsnap snap). congruence.
    + by rewrite lookup_insert_ne.
Qed.

Lemma run_snapshot_kept (cs : list call) (s s' : state) (l : loc)
    (snap : gmap string value) :
  Forall (fun c => ¬ writes_snapshot l c) cs -> run cs s = Returns s' ->
  heap s !! l = Some (SnapshotObj snap) -> heap s' !! l = Some (SnapshotObj snap).
Proof.
  intros Hcs. revert s. induction Hcs as [| c cs Hc _ IH]; intros s; simpl.
  - by intros [= <-].
  - unfold mbind, outcome_bind. destruct (exec c s) as [s1 |] eqn:Hexec; [| done].
    intros Hrun Hl. apply (IH s1 Hrun). by eapply exec_snapshot_kept.
Qed.

Lemma example_inv : registry_inv example_heap example_registry.
Proof.
  unfold registry_inv, example_registry, entries. simpl.
  apply map_Forall_insert_2; [split; [done | by vm_compute] |].
  apply map_Forall_singleton. split; [done | by vm_compute].
Qed.

(** * The registry's contract *)

(** A non-nil interface value whose pointer holds no instrument has no
    name to ask for: [metric.Name()] panics before the registry is
    touched. *)
Lemma Register_no_name_panics (st : store) (r : Registry) (m : Metric) :
  m ≠ NilMetric -> Metric_Name st m = Panics -> Register st r m = Panics.
Proof.
  intros Hm Hname. unfold Register. rewrite decide_False by done. by rewrite Hname.
Qed.

(** C1. [Register] refuses the nil interface value with the nil-metric
    error, but a [Metric] that holds a nil [*Counter] or a nil [*Gauge] gets
    past that check: it is not the nil interface value, [metric.Name()]
    dereferences the nil pointer, and the call panics, in every store and
    on every registry.  It returns neither the nil-metric error nor any
    other result. *)
Theorem Register_of_a_nil_pointer_panics (st : store) (r : Registry) :
  Register st r NilMetric
    = Returns (Some (Errorf "cannot register nil metric"), r) ∧
  PtrCounter NilPtr ≠ NilMetric ∧
  PtrGauge NilPtr ≠ NilMetric ∧
  Metric_Name st (PtrCounter NilPtr) = Panics ∧
  Metric_Name st (PtrGauge NilPtr) = Panics ∧
  Register st r (PtrCounter NilPtr) = Panics ∧
  Register st r (PtrGauge NilPtr) = Panics ∧
  (∀ res, Register st r (PtrCounter NilPtr) ≠ Returns res) ∧
  (∀ res, Register st r (PtrGauge NilPtr) ≠ Returns res).
Proof.
  assert (Hc : Register st r (PtrCounter NilPtr) = Panics)
    by (by apply Register_no_name_panics).
  assert (Hg : Register st r (PtrGauge NilPtr) = Panics)
    by (by apply Register_no_name_panics).
  split; [apply Register_nil |].
  do 6 (split; [done |]).
  split; intros res Hres; congruence.
Qed.

(** X20. On the nil metric and on every metric that answers [Name()],
    [Register] returns, and it returns an error in exactly three cases: the
    metric is nil (the nil-metric error), its name is empty
    ([ErrInvalidMetricName]), or its name is already indexed
    ([ErrDuplicateMetric], wrapped).  Otherwise the metric is registered and
    [Get] finds it under its name.  A metric that cannot answer [Name()]
    makes the call panic. *)
Theorem Register_fails_in_exactly_three_cases (st : store) (r : Registry) (m : Metric) :
  (m = NilMetric ->
     Register st r m = Returns (Some (Errorf "cannot register nil metric"), r)) ∧
  (∀ name, Metric_Name st m = Returns name ->
     (name = "" ->
        Register st r m = Returns (Some ErrInvalidMetricName, r) ∧
        errors_Is ErrInvalidMetricName ErrInvalidMetricName = true) ∧
     (name ≠ "" -> is_Some (entries r !! name) ->
        Register st r m = Returns (Some (Errorf_w ErrDuplicateMetric name), r) ∧
        errors_Is (Errorf_w ErrDuplicateMetric name) ErrDuplicateMetric = true) ∧
     (name ≠ "" -> entries r !! name = None ->
        ∃ r', Register st r m = Returns (None, r') ∧ Get r' name = (m, true))) ∧
  (∀ res, Register st r m = Returns res ->
     (is_Some res.1 ↔
        m = NilMetric ∨ Metric_Name st m = Returns "" ∨
        ∃ name, Metric_Name st m = Returns name ∧ is_Some (entries r !! name))) ∧
  (m ≠ NilMetric -> Metric_Name st m = Panics -> Register st r m = Panics).
Proof.
  split; [intros ->; apply Register_nil |]. split; [| split].
  - intros name Hname. split; [| split].
    + intros ->. split; [by apply Register_empty_name | done].
    + intros Hne Hdup. split; [by apply Register_duplicate |].
      apply errors_Is_wrapped.
    + intros Hne Hfree. eexists. split; [by apply Register_fresh_name |].
      rewrite Get_entries. unfold entries. simpl. by rewrite lookup_insert_eq.
  - intros res Hreg.
    destruct (Register_returns st r m res Hreg)
      as [[-> ->] | [(Hm & Hname & ->) | [(name & Hm & Hname & Hne & Hdup & ->) |
          (name & Hm & Hname & Hne & Hfree & ->)]]]; simpl.
    + split; eauto.
    + split; eauto.
    + split; eauto 6.
    + split; [by intros [? ?] |].
      intros [-> | [Hempty | (name' & Hname' & Hdup)]]; [done | congruence |].
      rewrite Hname in Hname'. injection Hname' as <-.
      rewrite Hfree in Hdup. by destruct Hdup.
  - apply Register_no_name_panics.
Qed.

Lemma Register_fails_in_exactly_three_cases_witness :
  Register example_heap example_registry NilMetric
    = Returns (Some (Errorf "cannot register nil metric"), example_registry) ∧
  Register (NewCounter "" ∅).2 example_registry (PtrCounter (Addr 1))
    = Returns (Some ErrInvalidMetricName, example_registry) ∧
  Register example_heap example_registry (PtrCounter (Addr 1))
    = Returns (Some (Errorf_w ErrDuplicateMetric "requests"), example_registry) ∧
  (∃ r', Register example_heap zero_Registry (PtrGauge (Addr 2)) = Returns (None, r') ∧
         Get r' "temp" = (PtrGauge (Addr 2), true)) ∧
  Register example_heap example_registry (PtrGauge NilPtr) = Panics.
Proof.
  split; [| split; [| split; [| split]]].
  - by apply (proj1 (Register_fails_in_exactly_three_cases
                        example_heap example_registry NilMetric)).
  - destruct (Register_fails_in_exactly_three_cases
                (NewCounter "" ∅).2 example_registry (PtrCounter (Addr 1)))
      as (_ & Hnamed & _).
    destruct (Hnamed "") as (Hempty & _); [by vm_compute |].
    destruct Hempty as [Hreg _]; [reflexivity | exact Hreg].
  - destruct (Register_fails_in_exactly_three_cases
                example_heap example_registry (PtrCounter (Addr 1)))
      as (_ & Hnamed & _).
    destruct (Hnamed "requests") as (_ & Hdup & _); [by vm_compute |].
    destruct Hdup as [Hreg _]; [discriminate | vm_compute; eauto | exact Hreg].
  - destruct (Register_fails_in_exactly_three_cases
                example_heap zero_Registry (PtrGauge (Addr 2)))
      as (_ & Hnamed & _).
    destruct (Hnamed "temp") as (_ & _ & Hfree); [by vm_compute |].
    apply Hfree; [discriminate | reflexivity].
  - destruct (Register_fails_in_exactly_three_cases
                example_heap example_registry (PtrGauge NilPtr))
      as (_ & _ & _ & Hpanic).
    apply Hpanic; [discriminate | reflexivity].
Defined.

(** C4. The zero value of [Registry] is an empty registry: [Len] is 0,
    [Get] finds nothing, [Snapshot] returns a new empty map (an address, not
    the nil map), and the first [Register] of a named instrument succeeds
    and creates the index. *)
Theorem zero_Registry_is_usable :
  metrics zero_Registry = None ∧
  Len zero_Registry = 0 ∧
  (∀ name, Get zero_Registry name = (NilMetric, false)) ∧
  (∀ st, ∃ l, Snapshot st zero_Registry = Returns (Addr l, <[l := SnapshotObj ∅]> st) ∧
              st !! l = None) ∧
  (∀ st m name, Metric_Name st m = Returns name -> name ≠ "" ->
     Register st zero_Registry m = Returns (None, mkRegistry (Some {[name := m]})) ∧
     Len (mkRegistry (Some {[name := m]})) = 1 ∧
     Get (mkRegistry (Some {[name := m]})) name = (m, true)).
Proof.
  split; [done |]. split; [done |]. split; [done |]. split.
  - intros st. exists (fresh (dom st)). split; [done |].
    apply not_elem_of_dom, is_fresh.
  - intros st m name Hname Hne. split; [| split].
    + rewrite (Register_fresh_name st zero_Registry m name); done.
    + unfold Len. simpl. by rewrite map_size_singleton.
    + unfold Get. simpl. by rewrite lookup_singleton_eq.
Qed.

Lemma zero_Registry_is_usable_witness :
  Register example_heap zero_Registry (PtrCounter (Addr 1))
    = Returns (None, mkRegistry (Some {["requests" := PtrCounter (Addr 1)]})) ∧
  Len (mkRegistry (Some {["requests" := PtrCounter (Addr 1)]})) = 1 ∧
  Get (mkRegistry (Some {["requests" := PtrCounter (Addr 1)]})) "requests"
    = (PtrCounter (Addr 1), true).
Proof.
  destruct zero_Registry_is_usable as (_ & _ & _ & _ & Hfirst).
  apply (Hfirst example_heap (PtrCounter (Addr 1)) "requests").
  - by vm_compute.
  - discriminate.
Defined.

(** C5. Registering an instrument under a name that is not empty and not
    yet indexed succeeds, and [Get] on that name then returns that very
    reference with [true]. *)
Theorem Register_then_Get (st : store) (r : Registry) (m : Metric) (name : string) :
  Metric_Name st m = Returns name -> name ≠ "" -> entries r !! name = None ->
  ∃ r', Register st r m = Returns (None, r') ∧ Get r' name = (m, true).
Proof.
  intros Hname Hne Hfree. eexists. split; [by apply Register_fresh_name |].
  rewrite Get_entries. unfold entries. simpl. by rewrite lookup_insert_eq.
Qed.

Lemma Register_then_Get_witness :
  ∃ r', Register example_heap zero_Registry (PtrCounter (Addr 1)) = Returns (None, r') ∧
        Get r' "requests" = (PtrCounter (Addr 1), true).
Proof.
  apply (Register_then_Get example_heap zero_Registry (PtrCounter (Addr 1)) "requests").
  - vm_compute. reflexivity.
  - discriminate.
  - reflexivity.
Defined.

(** C6. The calls of the registry are applied in full or not at all.
    When [Register] returns an error the registry is the one before the
    call, with the same length and the same answer of [Get] for every
    name, so also the first metric of a contested name; when it returns no
    error the index has gained exactly the new entry.  [Unregister] either
    returns an error and the same registry or removes exactly its entry,
    and [Clear] empties the index. *)
Theorem Registry_calls_are_all_or_nothing :
  (∀ st r m res,
     Register st r m = Returns res ->
     match res.1 with
     | Some e =>
         res.2 = r ∧ metrics res.2 = metrics r ∧ Len res.2 = Len r ∧
         ∀ name, Get res.2 name = Get r name
     | None =>
         ∃ name, Metric_Name st m = Returns name ∧ entries r !! name = None ∧
                 entries res.2 = <[name := m]> (entries r)
     end) ∧
  (∀ r name,
     match (Unregister r name).1 with
     | Some e => (Unregister r name).2 = r
     | None => is_Some (entries r !! name) ∧
               entries (Unregister r name).2 = delete name (entries r)
     end) ∧
  (∀ r, entries (Clear r) = ∅ ∧ Len (Clear r) = 0).
Proof.
  split; [| split].
  - intros st r m res Hreg.
    destruct (Register_returns st r m res Hreg)
      as [[_ ->] | [(_ & _ & ->) | [(name & _ & _ & _ & _ & ->) |
          (name & Hm & Hname & _ & Hfree & ->)]]]; simpl; eauto.
  - intros r name. destruct (entries r !! name) as [m |] eqn:Hlook.
    + rewrite Unregister_present by eauto. simpl. eauto.
    + by rewrite Unregister_absent.
  - intros r. split; [apply Clear_entries |].
    by rewrite Len_entries, Clear_entries, map_size_empty.
Qed.

Lemma Registry_calls_are_all_or_nothing_witness :
  let res := (Some (Errorf_w ErrDuplicateMetric "requests"), example_registry) in
  Register example_heap example_registry (PtrCounter (Addr 1)) = Returns res ∧
  res.2 = example_registry ∧ metrics res.2 = metrics example_registry ∧
  Len res.2 = Len example_registry ∧
  ∀ name, Get res.2 name = Get example_registry name.
Proof.
  intros res. split; [by vm_compute |].
  apply (proj1 Registry_calls_are_all_or_nothing example_heap example_registry
           (PtrCounter (Addr 1)) res).
  by vm_compute.
Defined.

Lemma size_delete_present {A : Type} (ms : gmap string A) (name : string) (x : A) :
  ms !! name = Some x -> Z.of_nat (size (delete name ms)) = Z.of_nat (size ms) - 1.
Proof.
  intros Hx. rewrite <- (insert_delete_id ms name x Hx) at 2.
  rewrite map_size_insert_None by apply lookup_delete_eq. lia.
Qed.

(** C7. [Unregister] returns an error exactly when the name is not indexed;
    the error wraps [ErrMetricNotFound] and the registry stays as it was.
    On an indexed name it removes that entry and no other: [Get] no longer
    finds the name, [Len] is one less, every other name answers as before,
    and the store, so the instrument itself, is not touched. *)
Theorem Unregister_semantics (r : Registry) (name : string) :
  (is_Some (Unregister r name).1 ↔ entries r !! name = None) ∧
  (entries r !! name = None ->
     Unregister r name = (Some (Errorf_w ErrMetricNotFound name), r) ∧
     errors_Is (Errorf_w ErrMetricNotFound name) ErrMetricNotFound = true) ∧
  (∀ m, entries r !! name = Some m ->
     ∃ r', Unregister r name = (None, r') ∧
           entries r' = delete name (entries r) ∧
           Get r' name = (NilMetric, false) ∧
           Len r' = Len r - 1 ∧
           (∀ other, other ≠ name -> Get r' other = Get r other) ∧
           (∀ st, exec (CallUnregister name) (mkState st r) = Returns (mkState st r'))).
Proof.
  split; [| split].
  - destruct (entries r !! name) as [m |] eqn:Hlook.
    + rewrite Unregister_present by eauto. simpl. split; [by intros [? ?] | done].
    + rewrite Unregister_absent by done. simpl. split; eauto.
  - intros Habsent. split; [by apply Unregister_absent | apply errors_Is_wrapped].
  - intros m Hm. eexists. split; [apply Unregister_present; eauto |].
    split; [done |]. split; [| split; [| split]].
    + rewrite Get_entries. unfold entries at 1. simpl. by rewrite lookup_delete_eq.
    + rewrite !Len_entries. unfold entries at 1. simpl.
      by apply (size_delete_present _ _ m).
    + intros other Hother. rewrite !Get_entries. unfold entries at 1. simpl.
      by rewrite lookup_delete_ne.
    + intros st. simpl. rewrite Unregister_present by eauto. done.
Qed.

Lemma Unregister_semantics_witness :
  ∃ r', Unregister example_registry "requests" = (None, r') ∧
        entries r' = delete "requests" (entries example_registry) ∧
        Get r' "requests" = (NilMetric, false) ∧
        Len r' = Len example_registry - 1 ∧
        (∀ other, other ≠ "requests" -> Get r' other = Get example_registry other) ∧
        (∀ st, exec (CallUnregister "requests") (mkState st example_registry)
               = Returns (mkState st r')).
Proof.
  destruct (Unregister_semantics example_registry "requests") as (_ & _ & Hpresent).
  apply (Hpresent (PtrCounter (Addr 1))). by vm_compute.
Defined.

(** C8. In every state a program can reach with [Register], [Unregister]
    and [Clear] (and any use of the instruments in between), each indexed
    name maps to a non-nil metric whose [Name()] is that name, and no name
    is indexed twice. *)
Theorem registry_invariant (s : state) :
  reachable s ->
  registry_inv (heap s) (registry s) ∧
  NoDup (map_to_list (entries (registry s))).*1 ∧
  (∀ name m, Get (registry s) name = (m, true) ->
     m ≠ NilMetric ∧ Metric_Name (heap s) m = Returns name).
Proof.
  intros Hreach. pose proof (reachable_inv s Hreach) as Hinv.
  split; [done |]. split; [apply NoDup_fst_map_to_list |].
  intros name m. rewrite Get_entries.
  destruct (entries (registry s) !! name) as [m' |] eqn:Hlook; [| done].
  intros [= <-]. by apply (Hinv name).
Qed.

Lemma registry_invariant_witness :
  registry_inv example_heap example_registry ∧
  NoDup (map_to_list (entries example_registry)).*1 ∧
  (∀ name m, Get example_registry name = (m, true) ->
     m ≠ NilMetric ∧ Metric_Name example_heap m = Returns name).
Proof.
  apply (registry_invariant (mkState example_heap example_registry)).
  apply (run_reachable
           [CallNewCounter "requests"; CallNewGauge "temp";
            CallRegister (PtrCounter (Addr 1)); CallUnregister "requests";
            CallClear; CallRegister (PtrCounter (Addr 1));
            CallRegister (PtrGauge (Addr 2)); CallRegister (PtrGauge (Addr 2))]
           (mkState ∅ zero_Registry)).
  - apply reachable_zero.
  - vm_compute. reflexivity.
Defined.

(** C2. On a registry whose entries are instruments, [Snapshot] returns a
    map at an address that was not in use, with one entry per indexed name
    holding what that instrument's [Value()] returned; and no later call,
    on an instrument, on the registry or a further [Snapshot], changes the
    map: only a write through the returned reference does. *)
Theorem Snapshot_complete_and_isolated (st : store) (r : Registry) :
  registry_inv st r ->
  ∃ l snap,
    Snapshot st r = Returns (Addr l, <[l := SnapshotObj snap]> st) ∧
    st !! l = None ∧
    Z.of_nat (size snap) = Len r ∧
    (∀ name, is_Some (snap !! name) ↔ is_Some (entries r !! name)) ∧
    (∀ name m, entries r !! name = Some m ->
       ∃ v, Metric_Value st m = Returns v ∧ snap !! name = Some v) ∧
    (∀ cs s', Forall (fun c => ¬ writes_snapshot l c) cs ->
       run cs (mkState (<[l := SnapshotObj snap]> st) r) = Returns s' ->
       heap s' !! l = Some (SnapshotObj snap)).
Proof.
  intros Hinv. pose proof (registry_inv_readable st r Hinv) as Hall.
  destruct (Snapshot_total st r Hall) as (s & st' & Hsnap).
  destruct (Snapshot_returns st st' r s Hsnap) as (_ & l & -> & Hfresh & ->).
  exists l, (omap (read_value st) (entries r)).
  split; [done |]. split; [done |]. split; [| split; [| split]].
  - rewrite Len_entries. f_equal. by apply omap_total_size.
  - intros name. by apply omap_total_lookup.
  - intros name m Hm. rewrite lookup_omap, Hm. simpl.
    destruct (Hall name m Hm) as [v Hv]. exists v. split; [| done].
    unfold read_value in Hv. by destruct (Metric_Value st m); simplify_eq.
  - intros cs s' Hcs Hrun. eapply run_snapshot_kept; [done | done |].
    simpl. apply lookup_insert_eq.
Qed.

Lemma Snapshot_complete_and_isolated_witness :
  ∃ l snap,
    Snapshot example_heap example_registry
      = Returns (Addr l, <[l := SnapshotObj snap]> example_heap) ∧
    example_heap !! l = None ∧
    Z.of_nat (size snap) = Len example_registry ∧
    (∀ name, is_Some (snap !! name) ↔ is_Some (entries example_registry !! name)) ∧
    (∀ name m, entries example_registry !! name = Some m ->
       ∃ v, Metric_Value example_heap m = Returns v ∧ snap !! name = Some v) ∧
    (∀ cs s', Forall (fun c => ¬ writes_snapshot l c) cs ->
       run cs (mkState (<[l := SnapshotObj snap]> example_heap) example_registry)
         = Returns s' ->
       heap s' !! l = Some (SnapshotObj snap)).
Proof.
  apply (Snapshot_complete_and_isolated example_heap example_registry).
  apply example_inv.
Defined.

(** A write through a snapshot reaches neither the instruments nor the
    registry: the next [Snapshot] holds what the first one held when it
    was returned. *)
Lemma read_value_insert_fresh (st : store) (l : loc) (o : object) (m : Metric) :
  st !! l = None -> is_Some (read_value st m) ->
  read_value (<[l := o]> st) m = read_value st m.
Proof.
  intros Hl. unfold read_value. destruct m as [| c | g]; simpl; [by intros [? ?] | |].
  - unfold Counter_Value, atomic_Int64_Load. unfold_bind.
    destruct (deref_counter st c) as [oc |] eqn:Hd; [| by intros [? ?]]. intros _.
    apply deref_counter_Returns in Hd as (lc & -> & Hlc).
    rewrite (deref_counter_Addr _ lc oc); [done |].
    rewrite lookup_insert_ne; [done | congruence].
  - unfold Gauge_Value, atomic_Float64_Load. unfold_bind.
    destruct (deref_gauge st g) as [og |] eqn:Hd; [| by intros [? ?]]. intros _.
    apply deref_gauge_Returns in Hd as (lg & -> & Hlg).
    rewrite (deref_gauge_Addr _ lg og); [done |].
    rewrite lookup_insert_ne; [done | congruence].
Qed.

Lemma Snapshot_after_assign (st st1 st2 st3 : store) (r : Registry) (s1 s2 : ptr)
    (key : string) (v : value) :
  Snapshot st r = Returns (s1, st1) ->
  Snapshot_assign st1 s1 key v = Returns st2 ->
  Snapshot st2 r = Returns (s2, st3) ->
  s2 ≠ s1 ∧
  deref st3 s2 = Returns (SnapshotObj (omap (read_value st) (entries r))).
Proof.
  intros H1 Hassign H2.
  apply Snapshot_returns in H1 as (Hall & l1 & -> & Hfresh1 & ->).
  apply Snapshot_returns in H2 as (_ & l2 & -> & Hfresh2 & ->).
  apply Snapshot_assign_Returns in Hassign as (l & snap & [= <-] & Hl1 & ->).
  rewrite lookup_insert_eq in Hl1. injection Hl1 as <-.
  split.
  - intros [= ->]. by rewrite lookup_insert_eq in Hfresh2.
  - erewrite deref_Addr; [| apply lookup_insert_eq]. do 2 f_equal.
    apply map_eq. intros name. rewrite !lookup_omap.
    destruct (entries r !! name) as [m |] eqn:Hm; simpl; [| done].
    rewrite insert_insert_eq. apply read_value_insert_fresh; [done |].
    by apply (Hall name m).
Qed.

(** * The instruments *)

Lemma clamp_max (delta : Z) : (if delta <? 0 then 0 else delta) = Z.max delta 0.
Proof. destruct (Z.ltb_spec delta 0); lia. Qed.

Lemma Counter_Load_Returns (st : store) (c : ptr) (v : Z) :
  Counter_Load st c = Returns v ↔
  ∃ l o, c = Addr l ∧ st !! l = Some (CounterObj o) ∧ counter_value o = v.
Proof.
  unfold Counter_Load, atomic_Int64_Load. unfold_bind.
  destruct (deref_counter st c) as [o |] eqn:Hd; split.
  - intros [= <-]. apply deref_counter_Returns in Hd as (l & -> & Hl). eauto.
  - intros (l & o' & -> & Hl & <-).
    rewrite (deref_counter_Addr _ _ _ Hl) in Hd. congruence.
  - done.
  - intros (l & o' & -> & Hl & _).
    rewrite (deref_counter_Addr _ _ _ Hl) in Hd. congruence.
Qed.

Lemma Counter_Add_at (st : store) (l : loc) (o : Counter) (delta : Z) :
  st !! l = Some (CounterObj o) ->
  Counter_Add st (Addr l) delta =
    Returns (<[l := CounterObj (mkCounter (counter_name o)
                      (Int64.add (counter_value o) (Z.max delta 0)))]> st).
Proof.
  intros Hl. unfold Counter_Add, atomic_Int64_Add. unfold_bind.
  by rewrite (deref_counter_Addr _ _ _ Hl), clamp_max.
Qed.

Lemma Counter_Inc_at (st : store) (l : loc) (o : Counter) :
  st !! l = Some (CounterObj o) ->
  Counter_Inc st (Addr l) =
    Returns (<[l := CounterObj (mkCounter (counter_name o)
                      (Int64.add (counter_value o) 1))]> st).
Proof.
  intros Hl. unfold Counter_Inc, atomic_Int64_Add. unfold_bind.
  by rewrite (deref_counter_Addr _ _ _ Hl).
Qed.

Lemma Counter_Load_insert (st : store) (l : loc) (o : Counter) :
  Counter_Load (<[l := CounterObj o]> st) (Addr l) = Returns (counter_value o).
Proof. apply Counter_Load_Returns. exists l, o. by rewrite lookup_insert_eq. Qed.

Lemma Counter_Name_insert (st : store) (l : loc) (o : Counter) :
  Counter_Name (<[l := CounterObj o]> st) (Addr l) = Returns (counter_name o).
Proof.
  unfold Counter_Name. unfold_bind.
  by rewrite (deref_counter_Addr _ l o) by apply lookup_insert_eq.
Qed.

(** C3, as first stated (every [Add] raises the value by [max(delta, 0)],
    so the value never goes down), fails at the top of [int64]: a counter
    brought to [MaxInt64] by one [Add] wraps to [MinInt64] on [Add(1)]. *)
Lemma Counter_Add_wraps_at_MaxInt64 :
  ∃ st1 st2,
    Counter_Add (NewCounter "requests" ∅).2 (NewCounter "requests" ∅).1 Int64.MaxInt64
      = Returns st1 ∧
    Counter_Load st1 (NewCounter "requests" ∅).1 = Returns Int64.MaxInt64 ∧
    Counter_Add st1 (NewCounter "requests" ∅).1 1 = Returns st2 ∧
    Counter_Load st2 (NewCounter "requests" ∅).1 = Returns Int64.MinInt64 ∧
    Int64.MinInt64 < Int64.MaxInt64 ∧
    Int64.MinInt64 ≠ Int64.MaxInt64 + Z.max 1 0.
Proof.
  eexists. eexists.
  split; [vm_compute; reflexivity |].
  split; [vm_compute; reflexivity |].
  split; [vm_compute; reflexivity |].
  split; [vm_compute; reflexivity |].
  split; [reflexivity | discriminate].
Qed.

(** C3. [Counter.Add] adds [max(delta, 0)] in [int64] arithmetic, in one
    step and keeping the name; as long as the sum does not pass [MaxInt64]
    the value grows by exactly [max(delta, 0)] and so does not go down.  A
    new counter reads 7 after [Inc(); Inc(); Add(5)] and 0 after
    [Add(-5)]. *)
Theorem Counter_Add_clamps_negative_delta :
  (∀ st c delta v,
     Counter_Load st c = Returns v ->
     ∃ st', Counter_Add st c delta = Returns st' ∧
            Counter_Load st' c = Returns (Int64.add v (Z.max delta 0)) ∧
            Counter_Name st' c = Counter_Name st c ∧
            Int64.in_range (Int64.add v (Z.max delta 0)) ∧
            (Int64.in_range v -> v + Z.max delta 0 <= Int64.MaxInt64 ->
               Counter_Load st' c = Returns (v + Z.max delta 0) ∧
               v <= v + Z.max delta 0)) ∧
  (∀ name st0,
     let c := (NewCounter name st0).1 in
     let st := (NewCounter name st0).2 in
     (∃ st1 st2 st3,
        Counter_Inc st c = Returns st1 ∧ Counter_Inc st1 c = Returns st2 ∧
        Counter_Add st2 c 5 = Returns st3 ∧ Counter_Load st3 c = Returns 7) ∧
     (∃ st1, Counter_Add st c (-5) = Returns st1 ∧ Counter_Load st1 c = Returns 0)).
Proof.
  split.
  - intros st c delta v Hload.
    apply Counter_Load_Returns in Hload as (l & o & -> & Hl & <-).
    eexists. split; [by apply Counter_Add_at |].
    split; [| split; [| split]].
    + by rewrite Counter_Load_insert.
    + rewrite Counter_Name_insert. simpl. unfold Counter_Name. unfold_bind.
      by rewrite (deref_counter_Addr _ _ _ Hl).
    + apply wrap_range.
    + intros Hrange Hsum. split; [| lia].
      rewrite Counter_Load_insert. simpl.
      unfold Int64.add. rewrite wrap_in_range; [done |].
      unfold Int64.in_range in *. lia.
  - intros name st0 c st. subst c st. unfold NewCounter.
    destruct (alloc_spec st0 (CounterObj (mkCounter name 0))) as (l & -> & _).
    simpl. split.
    + do 3 eexists.
      split; [apply Counter_Inc_at, lookup_insert_eq |].
      split; [apply Counter_Inc_at, lookup_insert_eq |].
      split; [apply Counter_Add_at, lookup_insert_eq |].
      by rewrite Counter_Load_insert.
    + eexists. split; [apply Counter_Add_at, lookup_insert_eq |].
      by rewrite Counter_Load_insert.
Qed.

Lemma Counter_Add_clamps_negative_delta_witness :
  ∃ st', Counter_Add example_heap (Addr 1) (-5) = Returns st' ∧
         Counter_Load st' (Addr 1) = Returns (Int64.add 0 (Z.max (-5) 0)) ∧
         Counter_Name st' (Addr 1) = Counter_Name example_heap (Addr 1) ∧
         Int64.in_range (Int64.add 0 (Z.max (-5) 0)) ∧
         (Int64.in_range 0 -> 0 + Z.max (-5) 0 <= Int64.MaxInt64 ->
            Counter_Load st' (Addr 1) = Returns (0 + Z.max (-5) 0) ∧
            0 <= 0 + Z.max (-5) 0).
Proof.
  apply (proj1 Counter_Add_clamps_negative_delta example_heap (Addr 1) (-5) 0).
  by vm_compute.
Defined.

(** C9. [Value()] is [Load()] under its dynamic type: an [int64] payload
    for a counter, a [float64] payload for a gauge; and the entry that
    [Snapshot] stores for an instrument is that same reading. *)
Theorem Value_agrees_with_Load :
  (∀ st c, Counter_Value st c = (n ← Counter_Load st c; Returns (Int64Val n))) ∧
  (∀ st g, Gauge_Value st g = (f ← Gauge_Load st g; Returns (Float64Val f))) ∧
  (∀ st c v, Counter_Value st c = Returns v ↔
             ∃ n, v = Int64Val n ∧ Counter_Load st c = Returns n) ∧
  (∀ st g v, Gauge_Value st g = Returns v ↔
             ∃ f, v = Float64Val f ∧ Gauge_Load st g = Returns f) ∧
  (∀ st st' r s name c,
     Snapshot st r = Returns (s, st') -> entries r !! name = Some (PtrCounter c) ->
     ∃ n snap, Counter_Load st c = Returns n ∧ deref st' s = Returns (SnapshotObj snap) ∧
               snap !! name = Some (Int64Val n)) ∧
  (∀ st st' r s name g,
     Snapshot st r = Returns (s, st') -> entries r !! name = Some (PtrGauge g) ->
     ∃ f snap, Gauge_Load st g = Returns f ∧ deref st' s = Returns (SnapshotObj snap) ∧
               snap !! name = Some (Float64Val f)).
Proof.
  split; [done |]. split; [done |]. split; [| split; [| split]].
  - intros st c v. unfold Counter_Value, Counter_Load, mbind, outcome_bind.
    destruct (atomic_Int64_Load st c) as [n |]; split.
    + intros [= <-]. eauto.
    + by intros (n' & -> & [= <-]).
    + done.
    + by intros (n' & _ & ?).
  - intros st g v. unfold Gauge_Value, Gauge_Load, mbind, outcome_bind.
    destruct (atomic_Float64_Load st g) as [f |]; split.
    + intros [= <-]. eauto.
    + by intros (f' & -> & [= <-]).
    + done.
    + by intros (f' & _ & ?).
  - intros st st' r s name c Hsnap Hc.
    apply Snapshot_returns in Hsnap as (Hall & l & -> & _ & ->).
    destruct (Hall name _ Hc) as [v Hv]. unfold read_value in Hv. simpl in Hv.
    unfold Counter_Value, mbind, outcome_bind in Hv. unfold Counter_Load.
    destruct (atomic_Int64_Load st c) as [n |] eqn:Hn; [| done].
    exists n. eexists. split; [done |].
    split; [apply deref_Addr, lookup_insert_eq |].
    rewrite lookup_omap, Hc. simpl. unfold read_value. simpl.
    unfold Counter_Value, mbind, outcome_bind. by rewrite Hn.
  - intros st st' r s name g Hsnap Hg.
    apply Snapshot_returns in Hsnap as (Hall & l & -> & _ & ->).
    destruct (Hall name _ Hg) as [v Hv]. unfold read_value in Hv. simpl in Hv.
    unfold Gauge_Value, mbind, outcome_bind in Hv. unfold Gauge_Load.
    destruct (atomic_Float64_Load st g) as [f |] eqn:Hf; [| done].
    exists f. eexists. split; [done |].
    split; [apply deref_Addr, lookup_insert_eq |].
    rewrite lookup_omap, Hg. simpl. unfold read_value. simpl.
    unfold Gauge_Value, mbind, outcome_bind. by rewrite Hf.
Qed.

Lemma Value_agrees_with_Load_witness :
  ∃ s st' n snap,
    Snapshot example_heap example_registry = Returns (s, st') ∧
    Counter_Load example_heap (Addr 1) = Returns n ∧
    deref st' s = Returns (SnapshotObj snap) ∧
    snap !! "requests" = Some (Int64Val n).
Proof.
  destruct (Snapshot_total example_heap example_registry) as (s & st' & Hsnap).
  { apply registry_inv_readable, example_inv. }
  destruct Value_agrees_with_Load as (_ & _ & _ & _ & Hcounter & _).
  destruct (Hcounter example_heap st' example_registry s "requests" (Addr 1) Hsnap)
    as (n & snap & Hload & Hderef & Hentry); [by vm_compute |].
  exists s, st', n, snap.
  split; [exact Hsnap |]. split; [exact Hload |].
  split; [exact Hderef | exact Hentry].
Defined.

(** C10. The constructors accept every string, the empty one included: the
    new instrument sits at an address that was not in use, answers [Name()]
    with that string and reads 0 (0.0 for a gauge).  An empty name is only
    refused by [Register]. *)
Theorem constructors_accept_any_name (s : string) (st : store) :
  (∃ l, (NewCounter s st).1 = Addr l ∧ st !! l = None) ∧
  Counter_Name (NewCounter s st).2 (NewCounter s st).1 = Returns s ∧
  Counter_Load (NewCounter s st).2 (NewCounter s st).1 = Returns 0 ∧
  Counter_Value (NewCounter s st).2 (NewCounter s st).1 = Returns (Int64Val 0) ∧
  (∃ l, (NewGauge s st).1 = Addr l ∧ st !! l = None) ∧
  Gauge_Name (NewGauge s st).2 (NewGauge s st).1 = Returns s ∧
  Gauge_Load (NewGauge s st).2 (NewGauge s st).1 = Returns 0%float ∧
  Gauge_Value (NewGauge s st).2 (NewGauge s st).1 = Returns (Float64Val 0%float) ∧
  (∀ r, Register (NewCounter "" st).2 r (PtrCounter (NewCounter "" st).1)
          = Returns (Some ErrInvalidMetricName, r)) ∧
  (∀ r, Register (NewGauge "" st).2 r (PtrGauge (NewGauge "" st).1)
          = Returns (Some ErrInvalidMetricName, r)).
Proof.
  assert (Hc : ∀ name, deref_counter (NewCounter name st).2 (NewCounter name st).1
                       = Returns (mkCounter name 0)).
  { intros name. unfold deref_counter, NewCounter. unfold_bind.
    by rewrite deref_alloc. }
  assert (Hg : ∀ name, deref_gauge (NewGauge name st).2 (NewGauge name st).1
                       = Returns (mkGauge name 0%float)).
  { intros name. unfold deref_gauge, NewGauge. unfold_bind.
    by rewrite deref_alloc. }
  assert (Hfresh : ∀ o, ∃ l, (alloc st o).1 = Addr l ∧ st !! l = None).
  { intros o. destruct (alloc_spec st o) as (l & -> & Hl). eauto. }
  repeat split.
  - apply Hfresh.
  - unfold Counter_Name. unfold_bind. by rewrite (Hc s).
  - unfold Counter_Load, atomic_Int64_Load. unfold_bind. by rewrite (Hc s).
  - unfold Counter_Value, atomic_Int64_Load. unfold_bind. by rewrite (Hc s).
  - apply Hfresh.
  - unfold Gauge_Name. unfold_bind. by rewrite (Hg s).
  - unfold Gauge_Load, atomic_Float64_Load. unfold_bind. by rewrite (Hg s).
  - unfold Gauge_Value, atomic_Float64_Load. unfold_bind. by rewrite (Hg s).
  - intros r. apply Register_empty_name.
    unfold Metric_Name, Counter_Name. unfold_bind. by rewrite (Hc "").
  - intros r. apply Register_empty_name.
    unfold Metric_Name, Gauge_Name. unfold_bind. by rewrite (Hg "").
Qed.

(** * The package's tests, replayed on the model *)

(** TestMetricType_String *)
Example test_MetricType_String :
  MetricType_String TypeCounter = "counter" ∧
  MetricType_String TypeGauge = "gauge" ∧
  MetricType_String 999 = "unknown".
Proof. by vm_compute. Qed.

(** TestCounter, "Inc increments by 1" and "Value returns interface{}" *)
Example test_Counter_Inc_and_Value :
  (s ← run [CallNewCounter "test"; CallCounterInc (Addr 1); CallCounterInc (Addr 1);
            CallCounterInc (Addr 1)] (mkState ∅ zero_Registry);
   Counter_Load (heap s) (Addr 1)) = Returns 3 ∧
  (s ← run [CallNewCounter "test"; CallCounterAdd (Addr 1) 42] (mkState ∅ zero_Registry);
   Counter_Value (heap s) (Addr 1)) = Returns (Int64Val 42).
Proof. by vm_compute. Qed.

(** TestGauge and the scenario of the specification: [Set(20.5)], [Inc()],
    [Dec()] reads 20.5 again. *)
Example test_Gauge_Set_Inc_Dec :
  (s ← run [CallNewGauge "temp"; CallGaugeSet (Addr 1) 20.5%float;
            CallGaugeInc (Addr 1); CallGaugeDec (Addr 1)] (mkState ∅ zero_Registry);
   Gauge_Load (heap s) (Addr 1)) = Returns 20.5%float.
Proof. by vm_compute. Qed.

(** TestRegistry, "zero value is usable" and "Register rejects duplicate
    metric" *)
Example test_Registry_zero_value_and_duplicate :
  (s ← run [CallNewCounter "test"; CallRegister (PtrCounter (Addr 1))]
         (mkState ∅ zero_Registry);
   Returns (Len (registry s))) = Returns 1 ∧
  (s ← run [CallNewCounter "duplicate"; CallNewCounter "duplicate";
            CallRegister (PtrCounter (Addr 1))] (mkState ∅ (NewRegistry 0));
   res ← Register (heap s) (registry s) (PtrCounter (Addr 2));
   Returns (res.1, Len res.2))
  = Returns (Some (Errorf_w ErrDuplicateMetric "duplicate"), 1).
Proof. by vm_compute. Qed.

(** TestRegistry_BoundaryProtection: the first snapshot keeps 100 after the
    counter moved on to 150. *)
Example test_BoundaryProtection :
  (s1 ← run [CallNewCounter "test"; CallCounterAdd (Addr 1) 100;
             CallRegister (PtrCounter (Addr 1)); CallSnapshot]
          (mkState ∅ (NewRegistry 0));
   s2 ← run [CallCounterAdd (Addr 1) 50; CallSnapshot] s1;
   val1 ← Snapshot_index (heap s2) (Addr 2) "test";
   val2 ← Snapshot_index (heap s2) (Addr 3) "test";
   Returns (val1, val2))
  = Returns (Some (Int64Val 100), Some (Int64Val 150)).
Proof. by vm_compute. Qed.

(** TestRegistry, "Snapshot returns defensive copy": writes through the
    first snapshot do not show in the next one.  The gauge is set to the
    [float64] that Go reads the literal 3.14 as. *)
Example test_Snapshot_defensive_copy :
  (s1 ← run [CallNewCounter "counter"; CallNewGauge "gauge";
             CallCounterAdd (Addr 1) 10; CallGaugeSet (Addr 2) 0x1.91eb851eb851fp+1%float;
             CallRegister (PtrCounter (Addr 1)); CallRegister (PtrGauge (Addr 2));
             CallSnapshot] (mkState ∅ (NewRegistry 0));
   n ← Snapshot_len (heap s1) (Addr 3);
   c ← Snapshot_index (heap s1) (Addr 3) "counter";
   g ← Snapshot_index (heap s1) (Addr 3) "gauge";
   s2 ← run [CallSnapshotAssign (Addr 3) "counter" (Int64Val 999);
             CallSnapshotAssign (Addr 3) "new_key" (StringVal "should not affect registry");
             CallSnapshot] s1;
   n' ← Snapshot_len (heap s2) (Addr 4);
   c' ← Snapshot_index (heap s2) (Addr 4) "counter";
   Returns (n, c, g, n', c'))
  = Returns (2, Some (Int64Val 10), Some (Float64Val 0x1.91eb851eb851fp+1%float), 2, Some (Int64Val 10)).
Proof. by vm_compute. Qed.

(** * Further properties of the registry *)

(** ** Names *)

Lemma Register_keeps_empty_name_out (st : store) (r : Registry) (m : Metric)
    (res : option error * Registry) :
  entries r !! "" = None -> Register st r m = Returns res ->
  entries res.2 !! "" = None.
Proof.
  intros Hr Hreg.
  destruct (Register_returns st r m res Hreg)
    as [[_ ->] | [(_ & _ & ->) | [(name & _ & _ & _ & _ & ->) |
        (name & _ & _ & Hne & _ & ->)]]]; simpl; try done.
  unfold entries. simpl. by rewrite lookup_insert_ne.
Qed.

Lemma Unregister_keeps_empty_name_out (r : Registry) (name : string) :
  entries r !! "" = None -> entries (Unregister r name).2 !! "" = None.
Proof.
  intros Hr. destruct (entries r !! name) as [m |] eqn:Hlook.
  - rewrite Unregister_present by eauto. unfold entries at 1. simpl.
    destruct (decide (name = "")) as [-> | Hne].
    + apply lookup_delete_eq.
    + by rewrite lookup_delete_ne.
  - by rewrite Unregister_absent.
Qed.

(** X1. The empty name is never indexed: in every state a program can
    reach, [Get("")] finds nothing and [Unregister("")] returns the
    not-found error. *)
Theorem empty_name_is_never_indexed (s : state) :
  reachable s ->
  entries (registry s) !! "" = None ∧
  Get (registry s) "" = (NilMetric, false) ∧
  Unregister (registry s) "" = (Some (Errorf_w ErrMetricNotFound ""), registry s).
Proof.
  intros Hreach.
  assert (Hempty : entries (registry s) !! "" = None).
  { induction Hreach as [st | st capacity | s s' c _ IH Hexec]; [done | done |].
    destruct c; simpl in Hexec; unfold on_heap in Hexec; unfold_bind;
      try (match type of Hexec with
           | match ?x with _ => _ end = _ => destruct x eqn:Hcall; [| done]
           end);
      injection Hexec as <-; simpl; try done.
    - by eapply Register_keeps_empty_name_out.
    - by apply Unregister_keeps_empty_name_out.
    - by rewrite Clear_entries. }
  split; [done |]. split.
  - by rewrite Get_entries, Hempty.
  - by apply Unregister_absent.
Qed.

Lemma empty_name_is_never_indexed_witness :
  entries example_registry !! "" = None ∧
  Get example_registry "" = (NilMetric, false) ∧
  Unregister example_registry ""
    = (Some (Errorf_w ErrMetricNotFound ""), example_registry).
Proof.
  apply (empty_name_is_never_indexed (mkState example_heap example_registry)).
  apply (run_reachable
           [CallNewCounter "requests"; CallNewGauge "temp";
            CallRegister (PtrCounter (Addr 1)); CallRegister (PtrGauge (Addr 2))]
           (mkState ∅ (NewRegistry 10))).
  - apply reachable_new.
  - vm_compute. reflexivity.
Defined.

(** ** How [Register], [Unregister] and [Clear] compose *)

(** X2. A [Register] that returns no error makes the index one longer,
    creates the map if it was nil, and leaves the answer of [Get] for
    every other name as it was. *)
Theorem Register_adds_one_entry (st : store) (r r' : Registry) (m : Metric) :
  Register st r m = Returns (None, r') ->
  ∃ name, Metric_Name st m = Returns name ∧
          Len r' = Len r + 1 ∧
          metrics r' ≠ None ∧
          Get r' name = (m, true) ∧
          ∀ other, other ≠ name -> Get r' other = Get r other.
Proof.
  intros Hreg.
  destruct (Register_returns st r m _ Hreg)
    as [[_ [=]] | [(_ & _ & [=]) | [(name & _ & _ & _ & _ & [=]) |
        (name & Hm & Hname & Hne & Hfree & [= ->])]]].
  exists name. split; [done |]. split; [| split; [done | split]].
  - rewrite !Len_entries. unfold entries at 1. simpl.
    rewrite map_size_insert_None by done. lia.
  - rewrite Get_entries. unfold entries at 1. simpl. by rewrite lookup_insert_eq.
  - intros other Hother. rewrite !Get_entries. unfold entries at 1. simpl.
    by rewrite lookup_insert_ne.
Qed.

Lemma Register_adds_one_entry_witness :
  ∃ name, Metric_Name example_heap (PtrGauge (Addr 2)) = Returns name ∧
          Len (mkRegistry (Some {["temp" := PtrGauge (Addr 2)]})) = Len zero_Registry + 1 ∧
          metrics (mkRegistry (Some {["temp" := PtrGauge (Addr 2)]})) ≠ None ∧
          Get (mkRegistry (Some {["temp" := PtrGauge (Addr 2)]})) name
            = (PtrGauge (Addr 2), true) ∧
          ∀ other, other ≠ name ->
            Get (mkRegistry (Some {["temp" := PtrGauge (Addr 2)]})) other
              = Get zero_Registry other.
Proof.
  apply (Register_adds_one_entry example_heap zero_Registry).
  vm_compute. reflexivity.
Defined.

(** X3. Register then Unregister is a round trip on the index: removing
    the name that was just registered gives back the entries, and the
    length, the registry had before. *)
Theorem Register_then_Unregister (st : store) (r r' : Registry) (m : Metric) :
  Register st r m = Returns (None, r') ->
  ∃ name, Metric_Name st m = Returns name ∧
          (Unregister r' name).1 = None ∧
          entries (Unregister r' name).2 = entries r ∧
          Len (Unregister r' name).2 = Len r.
Proof.
  intros Hreg.
  destruct (Register_returns st r m _ Hreg)
    as [[_ [=]] | [(_ & _ & [=]) | [(name & _ & _ & _ & _ & [=]) |
        (name & Hm & Hname & Hne & Hfree & [= ->])]]].
  exists name. split; [done |].
  assert (Hun : Unregister (mkRegistry (Some (<[name := m]> (entries r)))) name
                = (None, mkRegistry (Some (entries r)))).
  { rewrite Unregister_present.
    - unfold entries at 1. simpl. by rewrite delete_insert_id.
    - unfold entries at 1. simpl. rewrite lookup_insert_eq. eauto. }
  rewrite Hun. simpl. split; [done |]. split; [done |].
  by rewrite !Len_entries.
Qed.

Lemma Register_then_Unregister_witness :
  ∃ name, Metric_Name example_heap (PtrGauge (Addr 2)) = Returns name ∧
          (Unregister (mkRegistry (Some {["temp" := PtrGauge (Addr 2)]})) name).1 = None ∧
          entries (Unregister (mkRegistry (Some {["temp" := PtrGauge (Addr 2)]})) name).2
            = entries zero_Registry ∧
          Len (Unregister (mkRegistry (Some {["temp" := PtrGauge (Addr 2)]})) name).2
            = Len zero_Registry.
Proof.
  apply (Register_then_Unregister example_heap zero_Registry).
  vm_compute. reflexivity.
Defined.

(** X4. After a name was unregistered, a second [Unregister] of it returns
    the not-found error and changes nothing, and any instrument of that
    name, the old one or a new one, can be registered again; the length is
    then the one before the removal. *)
Theorem Unregister_frees_the_name (r : Registry) (name : string) (old : Metric) :
  entries r !! name = Some old ->
  let r1 := (Unregister r name).2 in
  Unregister r1 name = (Some (Errorf_w ErrMetricNotFound name), r1) ∧
  ∀ st m, Metric_Name st m = Returns name -> name ≠ "" ->
    ∃ r2, Register st r1 m = Returns (None, r2) ∧
          Get r2 name = (m, true) ∧ Len r2 = Len r.
Proof.
  intros Hold r1. subst r1. rewrite (Unregister_present r name) by eauto. simpl.
  assert (Hfree : entries (mkRegistry (Some (delete name (entries r)))) !! name = None).
  { unfold entries at 1. simpl. apply lookup_delete_eq. }
  split; [by apply Unregister_absent |].
  intros st m Hname Hne. eexists.
  split; [by apply Register_fresh_name |]. split.
  - rewrite Get_entries. unfold entries at 1. simpl. by rewrite lookup_insert_eq.
  - rewrite !Len_entries. unfold entries at 1 2. simpl.
    rewrite map_size_insert_None by apply lookup_delete_eq.
    pose proof (size_delete_present (entries r) name old Hold). lia.
Qed.

Lemma Unregister_frees_the_name_witness :
  let r1 := (Unregister example_registry "requests").2 in
  Unregister r1 "requests" = (Some (Errorf_w ErrMetricNotFound "requests"), r1) ∧
  ∀ st m, Metric_Name st m = Returns "requests" -> "requests" ≠ "" ->
    ∃ r2, Register st r1 m = Returns (None, r2) ∧
          Get r2 "requests" = (m, true) ∧ Len r2 = Len example_registry.
Proof.
  apply (Unregister_frees_the_name example_registry "requests" (PtrCounter (Addr 1))).
  vm_compute. reflexivity.
Defined.

(** X5. [Clear] leaves a registry that finds no name, refuses every
    [Unregister] with the not-found error, snapshots to a new empty map
    and accepts any named instrument again; clearing twice is clearing
    once, and the store, so every instrument, is as before. *)
Theorem Clear_leaves_an_empty_registry (r : Registry) :
  Clear (Clear r) = Clear r ∧
  (∀ name, Get (Clear r) name = (NilMetric, false)) ∧
  (∀ name, Unregister (Clear r) name
           = (Some (Errorf_w ErrMetricNotFound name), Clear r)) ∧
  (∀ st, ∃ l, Snapshot st (Clear r) = Returns (Addr l, <[l := SnapshotObj ∅]> st) ∧
              st !! l = None) ∧
  (∀ st m name, Metric_Name st m = Returns name -> name ≠ "" ->
     ∃ r', Register st (Clear r) m = Returns (None, r') ∧
           Len r' = 1 ∧ Get r' name = (m, true)) ∧
  (∀ st, exec CallClear (mkState st r) = Returns (mkState st (Clear r))).
Proof.
  split; [by destruct r as [[ms |]] |].
  split; [intros name; by rewrite Get_entries, Clear_entries |].
  split; [intros name; apply Unregister_absent; by rewrite Clear_entries |].
  split; [| split; [| done]].
  - intros st. exists (fresh (dom st)).
    split; [| apply not_elem_of_dom, is_fresh].
    destruct r as [[ms |]]; [| done].
    unfold Snapshot, Clear, make_metrics. simpl. by rewrite map_fold_empty.
  - intros st m name Hname Hne. eexists.
    split; [apply Register_fresh_name; [done | done | by rewrite Clear_entries] |].
    rewrite Clear_entries. split.
    + rewrite Len_entries. unfold entries. simpl.
      by rewrite map_size_insert_None by apply lookup_empty.
    + rewrite Get_entries. unfold entries. simpl. by rewrite lookup_insert_eq.
Qed.

Lemma Clear_leaves_an_empty_registry_witness :
  ∃ r', Register example_heap (Clear example_registry) (PtrCounter (Addr 1))
          = Returns (None, r') ∧
        Len r' = 1 ∧ Get r' "requests" = (PtrCounter (Addr 1), true).
Proof.
  destruct (Clear_leaves_an_empty_registry example_registry)
    as (_ & _ & _ & _ & Hagain & _).
  apply (Hagain example_heap (PtrCounter (Addr 1)) "requests").
  - vm_compute. reflexivity.
  - discriminate.
Defined.

(** X6. The map of a registry is made by the first [Register] that passes
    both checks and by nothing else: on the zero value every failing
    [Register], every [Unregister] and [Clear] leave the map nil, and once
    the map exists no call makes it nil again. *)
Theorem map_is_made_by_first_valid_Register :
  (∀ st m res, Register st zero_Registry m = Returns res ->
     (metrics res.2 = None ↔ is_Some res.1)) ∧
  (∀ name, (Unregister zero_Registry name).2 = zero_Registry) ∧
  Clear zero_Registry = zero_Registry ∧
  (∀ k s s', metrics (registry s) ≠ None -> exec k s = Returns s' ->
     metrics (registry s') ≠ None).
Proof.
  split; [| split; [done | split; [done |]]].
  - intros st m res Hreg.
    destruct (Register_returns st zero_Registry m res Hreg)
      as [[_ ->] | [(_ & _ & ->) | [(name & _ & _ & _ & Hdup & ->) |
          (name & _ & _ & _ & _ & ->)]]]; simpl.
    + split; eauto.
    + split; eauto.
    + by destruct Hdup.
    + split; [done | by intros [? ?]].
  - intros k s s' Hmap Hexec.
    destruct k; simpl in Hexec; unfold on_heap in Hexec; unfold_bind;
      try (match type of Hexec with
           | match ?x with _ => _ end = _ => destruct x eqn:Hcall; [| done]
           end);
      injection Hexec as <-; simpl; try done.
    + destruct (Register_returns _ _ _ _ Hcall)
        as [[_ ->] | [(_ & _ & ->) | [(name & _ & _ & _ & _ & ->) |
            (name & _ & _ & _ & _ & ->)]]]; done.
    + destruct (registry s) as [[ms |]]; [| done].
      unfold Unregister. simpl. by destruct (ms !! name).
    + by destruct (registry s) as [[ms |]].
Qed.

Lemma map_is_made_by_first_valid_Register_witness :
  metrics (registry (mkState example_heap (Clear example_registry))) ≠ None.
Proof.
  apply (proj2 (proj2 (proj2 map_is_made_by_first_valid_Register))
           CallClear (mkState example_heap example_registry)).
  - discriminate.
  - reflexivity.
Defined.

(** ** The zero value and [NewRegistry] *)

Lemma Snapshot_entries (st : store) (r : Registry) :
  Snapshot st r
  = (snapshot ← map_fold (snapshot_entry st) (Returns ∅) (entries r);
     Returns (alloc st (SnapshotObj snapshot))).
Proof.
  unfold Snapshot, entries. destruct (metrics r) as [ms |]; simpl; [done |].
  by rewrite map_fold_empty.
Qed.

Lemma Register_same_index (st : store) (r1 r2 : Registry) (m : Metric) :
  same_index r1 r2 ->
  match Register st r1 m, Register st r2 m with
  | Returns a, Returns b => a.1 = b.1 ∧ same_index a.2 b.2
  | Panics, Panics => True
  | _, _ => False
  end.
Proof.
  unfold same_index. intros Hsame.
  destruct (decide (m = NilMetric)) as [-> | Hm]; [by rewrite !Register_nil |].
  destruct (Metric_Name st m) as [name |] eqn:Hname.
  2: { by rewrite !Register_no_name_panics. }
  destruct (decide (name = "")) as [-> | Hne].
  { by rewrite !(Register_empty_name st _ m Hname). }
  destruct (entries r1 !! name) as [old |] eqn:Hlook.
  - rewrite (Register_duplicate st r1 m name), (Register_duplicate st r2 m name);
      rewrite <- ?Hsame, ?Hlook; eauto.
  - rewrite (Register_fresh_name st r1 m name), (Register_fresh_name st r2 m name);
      rewrite <- ?Hsame, ?Hlook; done.
Qed.

Lemma Unregister_same_index (r1 r2 : Registry) (name : string) :
  same_index r1 r2 ->
  (Unregister r1 name).1 = (Unregister r2 name).1 ∧
  same_index (Unregister r1 name).2 (Unregister r2 name).2.
Proof.
  unfold same_index. intros Hsame.
  destruct (entries r1 !! name) as [old |] eqn:Hlook.
  - rewrite (Unregister_present r1), (Unregister_present r2);
      rewrite <- ?Hsame, ?Hlook; eauto.
  - rewrite (Unregister_absent r1), (Unregister_absent r2);
      rewrite <- ?Hsame, ?Hlook; done.
Qed.

Lemma exec_same_end (k : call) (s1 s2 : state) :
  heap s1 = heap s2 -> same_index (registry s1) (registry s2) ->
  same_end (exec k s1) (exec k s2).
Proof.
  intros Hheap Hsame.
  destruct k; simpl; unfold on_heap; unfold_bind; rewrite <- ?Hheap;
    try (match goal with
         | |- same_end (match ?x with _ => _ end) _ => destruct x; by simpl
         end);
    try (by simpl).
  - pose proof (Register_same_index (heap s1) _ _ metric Hsame) as Hreg.
    destruct (Register (heap s1) (registry s1) metric),
             (Register (heap s1) (registry s2) metric); try done.
    simpl. by destruct Hreg.
  - simpl. split; [done | by apply Unregister_same_index].
  - simpl. split; [done |]. unfold same_index. by rewrite !Clear_entries.
  - rewrite !Snapshot_entries, Hsame. unfold_bind.
    by destruct (map_fold _ _ _).
Qed.

Lemma run_same_end (cs : list call) (s1 s2 : state) :
  heap s1 = heap s2 -> same_index (registry s1) (registry s2) ->
  same_end (run cs s1) (run cs s2).
Proof.
  revert s1 s2. induction cs as [| k cs IH]; intros s1 s2 Hheap Hsame; simpl.
  - done.
  - pose proof (exec_same_end k s1 s2 Hheap Hsame) as Hstep. unfold_bind.
    destruct (exec k s1) as [s1' |], (exec k s2) as [s2' |]; try done.
    destruct Hstep as [Hheap' Hsame']. by apply IH.
Qed.

(** X7. A registry used from its zero value cannot be told from one made
    by [NewRegistry], whatever the capacity hint: each [Register] and
    [Unregister] returns the same error, [Get], [Len] and [Snapshot]
    answer the same, and every program of calls ends alike on both (both
    panic, or both return with the same store and the same index). *)
Theorem zero_Registry_behaves_as_NewRegistry (capacity : Z) :
  (∀ st m,
     match Register st zero_Registry m, Register st (NewRegistry capacity) m with
     | Returns a, Returns b => a.1 = b.1 ∧ same_index a.2 b.2
     | Panics, Panics => True
     | _, _ => False
     end) ∧
  (∀ name, (Unregister zero_Registry name).1 = (Unregister (NewRegistry capacity) name).1) ∧
  (∀ name, Get zero_Registry name = Get (NewRegistry capacity) name) ∧
  Len zero_Registry = Len (NewRegistry capacity) ∧
  (∀ st, Snapshot st zero_Registry = Snapshot st (NewRegistry capacity)) ∧
  (∀ cs st, same_end (run cs (mkState st zero_Registry))
                     (run cs (mkState st (NewRegistry capacity)))).
Proof.
  assert (Hsame : same_index zero_Registry (NewRegistry capacity)) by done.
  split; [intros st m; by apply Register_same_index |].
  split; [intros name; by apply Unregister_same_index |].
  split; [intros name; by rewrite !Get_entries, Hsame |].
  split; [by rewrite !Len_entries, Hsame |].
  split; [intros st; by rewrite !Snapshot_entries, Hsame |].
  intros cs st. by apply run_same_end.
Qed.

(** * Further properties of [Snapshot] *)

Lemma read_value_Some (st : store) (m : Metric) (v : value) :
  read_value st m = Some v ↔ Metric_Value st m = Returns v.
Proof.
  unfold read_value. destruct (Metric_Value st m); split; congruence.
Qed.

Lemma omap_read_value_insert_fresh (st : store) (l : loc) (o : object)
    (ms : gmap string Metric) :
  st !! l = None -> readable st ms ->
  omap (read_value (<[l := o]> st)) ms = omap (read_value st) ms.
Proof.
  intros Hl Hall. apply map_eq. intros name. rewrite !lookup_omap.
  destruct (ms !! name) as [m |] eqn:Hm; simpl; [| done].
  apply read_value_insert_fresh; [done | by apply (Hall name m)].
Qed.

Lemma readable_insert_fresh (st : store) (l : loc) (o : object)
    (ms : gmap string Metric) :
  st !! l = None -> readable st ms -> readable (<[l := o]> st) ms.
Proof.
  intros Hl Hall name m Hm. rewrite read_value_insert_fresh; [| done |];
    by apply (Hall name m).
Qed.

(** X8. [Snapshot] only reads: every object of the store is left as it
    was, so every instrument answers [Value()] as before, and a second
    [Snapshot] taken right after returns a different map with the same
    contents. *)
Theorem Snapshot_only_reads (st st' : store) (r : Registry) (s : ptr) :
  Snapshot st r = Returns (s, st') ->
  (∀ l o, st !! l = Some o -> st' !! l = Some o) ∧
  (∀ m v, Metric_Value st m = Returns v -> Metric_Value st' m = Returns v) ∧
  ∃ s2 st'' snap,
    Snapshot st' r = Returns (s2, st'') ∧ s2 ≠ s ∧
    deref st'' s = Returns (SnapshotObj snap) ∧
    deref st'' s2 = Returns (SnapshotObj snap).
Proof.
  intros Hsnap.
  apply Snapshot_returns in Hsnap as (Hall & l & -> & Hfresh & ->).
  split; [| split].
  - intros l' o Hl'. rewrite lookup_insert_ne; [done | congruence].
  - intros m v Hv. apply read_value_Some.
    rewrite read_value_insert_fresh; [by apply read_value_Some | done |].
    apply read_value_Some in Hv. by rewrite Hv.
  - set (snap := omap (read_value st) (entries r)).
    pose proof (readable_insert_fresh st l (SnapshotObj snap) _ Hfresh Hall) as Hall'.
    destruct (Snapshot_total _ r Hall') as (s2 & st'' & Hsnap2).
    exists s2, st'', snap. split; [done |].
    apply Snapshot_returns in Hsnap2 as (_ & l2 & -> & Hfresh2 & ->).
    assert (Hne : l2 ≠ l).
    { intros ->. by rewrite lookup_insert_eq in Hfresh2. }
    split; [congruence |]. split.
    + apply deref_Addr. rewrite lookup_insert_ne by done. apply lookup_insert_eq.
    + apply deref_Addr. rewrite lookup_insert_eq. do 2 f_equal.
      by apply omap_read_value_insert_fresh.
Qed.

Lemma Snapshot_only_reads_witness :
  ∃ s st',
    Snapshot example_heap example_registry = Returns (s, st') ∧
    (∀ l o, example_heap !! l = Some o -> st' !! l = Some o) ∧
    (∀ m v, Metric_Value example_heap m = Returns v -> Metric_Value st' m = Returns v) ∧
    ∃ s2 st'' snap,
      Snapshot st' example_registry = Returns (s2, st'') ∧ s2 ≠ s ∧
      deref st'' s = Returns (SnapshotObj snap) ∧
      deref st'' s2 = Returns (SnapshotObj snap).
Proof.
  destruct (Snapshot_total example_heap example_registry) as (s & st' & Hsnap).
  { apply registry_inv_readable, example_inv. }
  exists s, st'. split; [exact Hsnap |].
  exact (Snapshot_only_reads example_heap st' example_registry s Hsnap).
Defined.

Lemma read_value_counter (st : store) (c : ptr) (v : Z) :
  Counter_Load st c = Returns v -> read_value st (PtrCounter c) = Some (Int64Val v).
Proof.
  intros Hload. apply read_value_Some. simpl.
  unfold Counter_Value, Counter_Load in *. unfold_bind. by rewrite Hload.
Qed.

(** X9. Snapshots taken before and after an update differ as they should:
    for a registered counter that reads [v], the snapshot taken first
    holds [v] under its name and still holds it after [Add(delta)] and a
    second [Snapshot], while the second one holds the new reading. *)
Theorem Snapshot_before_and_after_Add (st : store) (r : Registry) (name : string)
    (c : ptr) (v delta : Z) :
  registry_inv st r -> entries r !! name = Some (PtrCounter c) ->
  Counter_Load st c = Returns v ->
  ∃ s1 st1 st2 s2 st3,
    Snapshot st r = Returns (s1, st1) ∧
    Counter_Add st1 c delta = Returns st2 ∧
    Snapshot st2 r = Returns (s2, st3) ∧
    s1 ≠ s2 ∧
    Snapshot_index st1 s1 name = Returns (Some (Int64Val v)) ∧
    Snapshot_index st3 s1 name = Returns (Some (Int64Val v)) ∧
    Snapshot_index st3 s2 name
      = Returns (Some (Int64Val (Int64.add v (Z.max delta 0)))).
Proof.
  intros Hinv Hname Hload.
  pose proof (registry_inv_readable st r Hinv) as Hall.
  destruct (Snapshot_total st r Hall) as (s1 & st1 & Hsnap1).
  pose proof Hsnap1 as Hsnap1'.
  apply Snapshot_returns in Hsnap1' as (_ & l1 & -> & Hfresh1 & ->).
  set (snap1 := omap (read_value st) (entries r)).
  assert (Hentry1 : snap1 !! name = Some (Int64Val v)).
  { unfold snap1. rewrite lookup_omap, Hname. simpl. by apply read_value_counter. }
  apply Counter_Load_Returns in Hload as (lc & o & -> & Hlc & <-).
  assert (Hne : l1 ≠ lc) by congruence.
  set (st1 := <[l1 := SnapshotObj snap1]> st) in *.
  assert (Hlc1 : st1 !! lc = Some (CounterObj o)).
  { unfold st1. by rewrite lookup_insert_ne. }
  set (o' := mkCounter (counter_name o)
               (Int64.add (counter_value o) (Z.max delta 0))).
  set (st2 := <[lc := CounterObj o']> st1).
  assert (Hinv2 : registry_inv st2 r).
  { apply (registry_inv_store_le st); [| done].
    intros q oq Hq. unfold st2, st1.
    destruct (decide (lc = q)) as [<- | Hq1].
    - exists (CounterObj o'). rewrite lookup_insert_eq. split; [done |].
      rewrite Hlc in Hq. by injection Hq as <-.
    - exists oq. rewrite lookup_insert_ne by done.
      rewrite lookup_insert_ne by congruence. auto with store_facts. }
  destruct (Snapshot_total st2 r (registry_inv_readable st2 r Hinv2))
    as (s2 & st3 & Hsnap2).
  pose proof Hsnap2 as Hsnap2'.
  apply Snapshot_returns in Hsnap2' as (_ & l2 & -> & Hfresh2 & ->).
  assert (Hl1 : st2 !! l1 = Some (SnapshotObj snap1)).
  { unfold st2, st1. rewrite lookup_insert_ne by done. apply lookup_insert_eq. }
  assert (Hne2 : l2 ≠ l1) by congruence.
  exists (Addr l1), st1, st2, (Addr l2). eexists.
  split; [exact Hsnap1 |]. split; [by apply Counter_Add_at |].
  split; [exact Hsnap2 |]. split; [congruence |].
  split; [| split].
  - unfold Snapshot_index. unfold_bind.
    rewrite (deref_Addr st1 l1 (SnapshotObj snap1)) by apply lookup_insert_eq.
    by rewrite Hentry1.
  - unfold Snapshot_index. unfold_bind.
    rewrite (deref_Addr _ l1 (SnapshotObj snap1)).
    + by rewrite Hentry1.
    + by rewrite lookup_insert_ne.
  - unfold Snapshot_index. unfold_bind.
    erewrite deref_Addr; [| apply lookup_insert_eq]. simpl.
    rewrite lookup_omap, Hname. simpl.
    rewrite (read_value_counter st2 (Addr lc) (counter_value o')); [done |].
    apply Counter_Load_insert.
Qed.

Lemma Snapshot_before_and_after_Add_witness :
  ∃ s1 st1 st2 s2 st3,
    Snapshot example_heap example_registry = Returns (s1, st1) ∧
    Counter_Add st1 (Addr 1) 50 = Returns st2 ∧
    Snapshot st2 example_registry = Returns (s2, st3) ∧
    s1 ≠ s2 ∧
    Snapshot_index st1 s1 "requests" = Returns (Some (Int64Val 0)) ∧
    Snapshot_index st3 s1 "requests" = Returns (Some (Int64Val 0)) ∧
    Snapshot_index st3 s2 "requests"
      = Returns (Some (Int64Val (Int64.add 0 (Z.max 50 0)))).
Proof.
  apply (Snapshot_before_and_after_Add example_heap example_registry "requests"
           (Addr 1) 0 50).
  - apply example_inv.
  - vm_compute. reflexivity.
  - vm_compute. reflexivity.
Defined.

(** * Further properties of the instruments *)

(** ** Counters over whole programs *)

Lemma wrap_add_wrap (a b : Z) : Int64.wrap (Int64.wrap a + b) = Int64.wrap (a + b).
Proof.
  unfold Int64.wrap.
  replace ((a + 2 ^ 63) mod 2 ^ 64 - 2 ^ 63 + b + 2 ^ 63)
    with ((a + 2 ^ 63) mod 2 ^ 64 + b) by lia.
  rewrite Z.add_mod_idemp_l by lia. do 2 f_equal. lia.
Qed.

Lemma counter_increment_nonneg (c : ptr) (k : call) : 0 <= counter_increment c k.
Proof. destruct k; simpl; try case_decide; lia. Qed.

Lemma increments_nonneg (c : ptr) (cs : list call) : 0 <= increments c cs.
Proof.
  induction cs as [| k cs IH]; simpl; [lia |].
  pose proof (counter_increment_nonneg c k). lia.
Qed.

Lemma increments_permutation (c : ptr) (cs cs' : list call) :
  cs ≡ₚ cs' -> increments c cs = increments c cs'.
Proof. induction 1; simpl; lia. Qed.

Lemma fresh_is_unused (st : store) (l : loc) (o : object) :
  st !! l = Some o -> fresh (dom st) ≠ l.
Proof.
  intros Hl Heq. pose proof (is_fresh (dom st)) as Hfresh.
  rewrite Heq in Hfresh. apply Hfresh, elem_of_dom. eauto.
Qed.

Lemma Counter_Load_insert_ne (st : store) (l lc : loc) (o : object) :
  l ≠ lc -> Counter_Load (<[l := o]> st) (Addr lc) = Counter_Load st (Addr lc).
Proof.
  intros Hne. unfold Counter_Load, atomic_Int64_Load, deref_counter, deref.
  by rewrite lookup_insert_ne.
Qed.

(** One call moves the reading of a counter by what it adds to it. *)
Lemma exec_Counter_Load (k : call) (s s' : state) (c : ptr) (v : Z) :
  Counter_Load (heap s) c = Returns v -> Int64.in_range v ->
  exec k s = Returns s' ->
  Counter_Load (heap s') c = Returns (Int64.add v (counter_increment c k)).
Proof.
  intros Hload Hrange Hexec.
  assert (Hsame : Int64.add v 0 = v).
  { unfold Int64.add. rewrite Z.add_0_r. by apply wrap_in_range. }
  pose proof Hload as Hload'.
  apply Counter_Load_Returns in Hload' as (lc & oc & -> & Hlc & <-).
  destruct k; simpl in Hexec; unfold on_heap in Hexec; unfold_bind;
    try (match type of Hexec with
         | match ?x with _ => _ end = _ => destruct x eqn:Hcall; [| done]
         end);
    injection Hexec as <-; cbn [heap counter_increment]; rewrite ?Hsame; try done.
  - rewrite Counter_Load_insert_ne; [done | by eapply fresh_is_unused].
  - rewrite Counter_Load_insert_ne; [done | by eapply fresh_is_unused].
  - apply atomic_Int64_Add_Returns in Hcall as (l & o & -> & Hl & ->).
    case_decide as Heq.
    + injection Heq as ->. rewrite Hlc in Hl. injection Hl as <-.
      by rewrite Counter_Load_insert.
    + rewrite Hsame, Counter_Load_insert_ne; [done | congruence].
  - apply atomic_Int64_Add_Returns in Hcall as (l & o & -> & Hl & ->).
    rewrite clamp_max. case_decide as Heq.
    + injection Heq as ->. rewrite Hlc in Hl. injection Hl as <-.
      by rewrite Counter_Load_insert.
    + rewrite Hsame, Counter_Load_insert_ne; [done | congruence].
  - apply atomic_Float64_Store_Returns in Hcall as (l & o & -> & Hl & ->).
    rewrite Counter_Load_insert_ne; [done | congruence].
  - apply atomic_Float64_Add_Returns in Hcall as (l & o & -> & Hl & ->).
    rewrite Counter_Load_insert_ne; [done | congruence].
  - apply atomic_Float64_Add_Returns in Hcall as (l & o & -> & Hl & ->).
    rewrite Counter_Load_insert_ne; [done | congruence].
  - apply atomic_Float64_Add_Returns in Hcall as (l & o & -> & Hl & ->).
    rewrite Counter_Load_insert_ne; [done | congruence].
  - destruct (Snapshot (heap s) (registry s)) as [[s2 st2] |] eqn:Hsnap; [| done].
    injection Hcall as <-. simpl.
    apply Snapshot_returns in Hsnap as (_ & l & -> & Hl & ->).
    rewrite Counter_Load_insert_ne; [done | congruence].
  - apply Snapshot_assign_Returns in Hcall as (l & snap & -> & Hl & ->).
    rewrite Counter_Load_insert_ne; [done | congruence].
Qed.

Lemma run_Counter_Load (cs : list call) (s s' : state) (c : ptr) (v : Z) :
  Counter_Load (heap s) c = Returns v -> Int64.in_range v ->
  run cs s = Returns s' ->
  Counter_Load (heap s') c = Returns (Int64.wrap (v + increments c cs)).
Proof.
  revert s v. induction cs as [| k cs IH]; intros s v Hload Hrange; simpl.
  - intros [= <-]. by rewrite Z.add_0_r, wrap_in_range.
  - unfold_bind. destruct (exec k s) as [s1 |] eqn:Hexec; [| done]. intros Hrun.
    rewrite (IH s1 (Int64.add v (counter_increment c k))).
    + unfold Int64.add. rewrite wrap_add_wrap. do 2 f_equal. lia.
    + by eapply exec_Counter_Load.
    + apply wrap_range.
    + done.
Qed.

(** X10. No increment of a counter is lost and none is invented: after
    any program of calls that returns, the counter reads its old value
    plus the sum of what its own [Inc] and [Add] calls added (negative
    deltas counting 0), reduced to [int64]; calls on other instruments, on
    the registry or on snapshots do not move it.  So the order of the
    calls does not matter, and as long as the sum stays within [MaxInt64]
    the reading is exact and never below the old one. *)
Theorem counter_counts_every_increment (cs : list call) (s s' : state) (c : ptr)
    (v : Z) :
  Counter_Load (heap s) c = Returns v -> Int64.in_range v ->
  run cs s = Returns s' ->
  Counter_Load (heap s') c = Returns (Int64.wrap (v + increments c cs)) ∧
  (v + increments c cs <= Int64.MaxInt64 ->
     Counter_Load (heap s') c = Returns (v + increments c cs) ∧
     v <= v + increments c cs) ∧
  (∀ cs' s'', cs ≡ₚ cs' -> run cs' s = Returns s'' ->
     Counter_Load (heap s'') c = Counter_Load (heap s') c).
Proof.
  intros Hload Hrange Hrun.
  pose proof (run_Counter_Load cs s s' c v Hload Hrange Hrun) as Hfinal.
  pose proof (increments_nonneg c cs) as Hpos.
  split; [done |]. split.
  - intros Hsum. rewrite Hfinal. split; [| lia].
    rewrite wrap_in_range; [done |]. unfold Int64.in_range in *. lia.
  - intros cs' s'' Hperm Hrun'.
    rewrite Hfinal, (run_Counter_Load cs' s s'' c v Hload Hrange Hrun').
    by rewrite (increments_permutation c cs cs').
Qed.

Lemma counter_counts_every_increment_witness :
  let cs := [CallCounterInc (Addr 1); CallGaugeDec (Addr 2);
             CallCounterAdd (Addr 1) (-3); CallSnapshot;
             CallCounterAdd (Addr 1) 5; CallRegister (PtrCounter (Addr 1))] in
  ∃ s',
    run cs (mkState example_heap zero_Registry) = Returns s' ∧
    Counter_Load (heap s') (Addr 1)
      = Returns (Int64.wrap (0 + increments (Addr 1) cs)) ∧
    (0 + increments (Addr 1) cs <= Int64.MaxInt64 ->
       Counter_Load (heap s') (Addr 1) = Returns (0 + increments (Addr 1) cs) ∧
       0 <= 0 + increments (Addr 1) cs) ∧
    (∀ cs' s'', cs ≡ₚ cs' ->
       run cs' (mkState example_heap zero_Registry) = Returns s'' ->
       Counter_Load (heap s'') (Addr 1) = Counter_Load (heap s') (Addr 1)).
Proof.
  intros cs. eexists. split; [vm_compute; reflexivity |].
  apply (counter_counts_every_increment cs (mkState example_heap zero_Registry)).
  - vm_compute. reflexivity.
  - vm_compute. split; discriminate.
  - vm_compute. reflexivity.
Defined.

(** ** What a call on one instrument leaves alone *)

Lemma counter_update_shape (st : store) (l : loc) (o : Counter) (v : Z) :
  st !! l = Some (CounterObj o) ->
  ∃ l0 o0 o', Addr l = Addr l0 ∧ st !! l0 = Some o0 ∧ same_instrument o0 o' ∧
              (∀ snap, o0 ≠ SnapshotObj snap) ∧
              <[l := CounterObj (mkCounter (counter_name o) v)]> st = <[l0 := o']> st.
Proof.
  intros Hl. exists l, (CounterObj o), (CounterObj (mkCounter (counter_name o) v)).
  by repeat split.
Qed.

Lemma gauge_update_shape (st : store) (l : loc) (o : Gauge) (v : float) :
  st !! l = Some (GaugeObj o) ->
  ∃ l0 o0 o', Addr l = Addr l0 ∧ st !! l0 = Some o0 ∧ same_instrument o0 o' ∧
              (∀ snap, o0 ≠ SnapshotObj snap) ∧
              <[l := GaugeObj (mkGauge (gauge_name o) v)]> st = <[l0 := o']> st.
Proof.
  intros Hl. exists l, (GaugeObj o), (GaugeObj (mkGauge (gauge_name o) v)).
  by repeat split.
Qed.

(** A call on an instrument that returns rewrote the object behind its
    receiver, keeping what kind of instrument it is and its name. *)
Lemma exec_receiver (k : call) (s s' : state) (p : ptr) :
  receiver k = Some p -> exec k s = Returns s' ->
  registry s' = registry s ∧
  ∃ l o o', p = Addr l ∧ heap s !! l = Some o ∧ same_instrument o o' ∧
            (∀ snap, o ≠ SnapshotObj snap) ∧
            heap s' = <[l := o']> (heap s).
Proof.
  intros Hrecv Hexec.
  destruct k; simpl in Hrecv; try done; injection Hrecv as <-;
    simpl in Hexec; unfold on_heap in Hexec; unfold_bind;
    (match type of Hexec with
     | match ?x with _ => _ end = _ => destruct x eqn:Hcall; [| done]
     end);
    injection Hexec as <-; simpl; (split; [done |]).
  - apply atomic_Int64_Add_Returns in Hcall as (l & o & -> & Hl & ->).
    by apply counter_update_shape.
  - apply atomic_Int64_Add_Returns in Hcall as (l & o & -> & Hl & ->).
    by apply counter_update_shape.
  - apply atomic_Float64_Store_Returns in Hcall as (l & o & -> & Hl & ->).
    by apply gauge_update_shape.
  - apply atomic_Float64_Add_Returns in Hcall as (l & o & -> & Hl & ->).
    by apply gauge_update_shape.
  - apply atomic_Float64_Add_Returns in Hcall as (l & o & -> & Hl & ->).
    by apply gauge_update_shape.
  - apply atomic_Float64_Add_Returns in Hcall as (l & o & -> & Hl & ->).
    by apply gauge_update_shape.
Qed.

Lemma deref_insert_ne (st : store) (l : loc) (o : object) (q : ptr) :
  q ≠ Addr l -> deref (<[l := o]> st) q = deref st q.
Proof.
  intros Hq. destruct q as [| l']; [done |]. simpl.
  rewrite lookup_insert_ne; [done | congruence].
Qed.

Lemma Metric_Name_same_instrument (st : store) (l : loc) (o o' : object) (m : Metric) :
  st !! l = Some o -> same_instrument o o' ->
  Metric_Name (<[l := o']> st) m = Metric_Name st m.
Proof.
  intros Hl Hsame.
  destruct m as [| q | q]; simpl; [done | |];
    unfold Counter_Name, Gauge_Name, deref_counter, deref_gauge; unfold_bind;
    (destruct (decide (q = Addr l)) as [-> | Hq];
     [| by rewrite deref_insert_ne]);
    simpl; rewrite lookup_insert_eq, Hl;
    destruct o, o'; simpl in *; by try rewrite Hsame.
Qed.

(** X11. A call on one instrument ([Inc], [Add], [Set], [Dec]) that
    returns touches that instrument only: the registry is not changed,
    nothing is allocated, every other address holds the object it held,
    every other counter and gauge reads as before, and no metric, the
    receiver included, changes its name. *)
Theorem instrument_calls_touch_only_their_receiver (k : call) (s s' : state) (p : ptr) :
  receiver k = Some p -> exec k s = Returns s' ->
  registry s' = registry s ∧
  dom (heap s') = dom (heap s) ∧
  (∃ l, p = Addr l ∧ ∀ l', l' ≠ l -> heap s' !! l' = heap s !! l') ∧
  (∀ q, q ≠ p ->
     Counter_Load (heap s') q = Counter_Load (heap s) q ∧
     Gauge_Load (heap s') q = Gauge_Load (heap s) q) ∧
  (∀ m, Metric_Name (heap s') m = Metric_Name (heap s) m).
Proof.
  intros Hrecv Hexec.
  destruct (exec_receiver k s s' p Hrecv Hexec)
    as (Hreg & l & o & o' & -> & Hl & Hsame & _ & ->).
  split; [done |]. split; [| split; [| split]].
  - apply dom_insert_lookup_L. eauto.
  - exists l. split; [done |]. intros l' Hne. by rewrite lookup_insert_ne.
  - intros q Hq.
    unfold Counter_Load, Gauge_Load, atomic_Int64_Load, atomic_Float64_Load,
      deref_counter, deref_gauge.
    by rewrite deref_insert_ne.
  - intros m. by eapply Metric_Name_same_instrument.
Qed.

Lemma instrument_calls_touch_only_their_receiver_witness :
  ∃ s',
    exec (CallCounterAdd (Addr 1) 5) (mkState example_heap example_registry)
      = Returns s' ∧
    registry s' = example_registry ∧
    dom (heap s') = dom example_heap ∧
    (∃ l, Addr 1 = Addr l ∧ ∀ l', l' ≠ l -> heap s' !! l' = example_heap !! l') ∧
    (∀ q, q ≠ Addr 1 ->
       Counter_Load (heap s') q = Counter_Load example_heap q ∧
       Gauge_Load (heap s') q = Gauge_Load example_heap q) ∧
    (∀ m, Metric_Name (heap s') m = Metric_Name example_heap m).
Proof.
  eexists. split; [vm_compute; reflexivity |].
  apply (instrument_calls_touch_only_their_receiver (CallCounterAdd (Addr 1) 5)
           (mkState example_heap example_registry) _ (Addr 1)).
  - reflexivity.
  - vm_compute. reflexivity.
Defined.

(** X12. [Counter.Add] with a delta that is zero or negative is a no-op:
    the call returns and the store is exactly the one before. *)
Theorem Counter_Add_of_nonpositive_delta_is_a_noop (st : store) (c : ptr) (v delta : Z) :
  Counter_Load st c = Returns v -> Int64.in_range v -> delta <= 0 ->
  Counter_Add st c delta = Returns st.
Proof.
  intros Hload Hrange Hdelta.
  apply Counter_Load_Returns in Hload as (l & o & -> & Hl & <-).
  rewrite (Counter_Add_at st l o delta Hl). f_equal.
  apply insert_id. rewrite Hl. do 2 f_equal.
  destruct o as [name v]. simpl in *. f_equal.
  unfold Int64.add. rewrite Z.max_r by lia. rewrite Z.add_0_r.
  symmetry. by apply wrap_in_range.
Qed.

Lemma Counter_Add_of_nonpositive_delta_is_a_noop_witness :
  Counter_Add example_heap (Addr 1) (-5) = Returns example_heap.
Proof.
  apply (Counter_Add_of_nonpositive_delta_is_a_noop example_heap (Addr 1) 0 (-5)).
  - vm_compute. reflexivity.
  - vm_compute. split; discriminate.
  - lia.
Defined.

(** ** Gauges *)

Lemma Gauge_Load_Returns (st : store) (g : ptr) (x : float) :
  Gauge_Load st g = Returns x ↔
  ∃ l o, g = Addr l ∧ st !! l = Some (GaugeObj o) ∧ gauge_value o = x.
Proof.
  unfold Gauge_Load, atomic_Float64_Load. unfold_bind.
  destruct (deref_gauge st g) as [o |] eqn:Hd; split.
  - intros [= <-]. apply deref_gauge_Returns in Hd as (l & -> & Hl). eauto.
  - intros (l & o' & -> & Hl & <-).
    rewrite (deref_gauge_Addr _ _ _ Hl) in Hd. congruence.
  - done.
  - intros (l & o' & -> & Hl & _).
    rewrite (deref_gauge_Addr _ _ _ Hl) in Hd. congruence.
Qed.

Lemma Gauge_Load_insert (st : store) (l : loc) (o : Gauge) :
  Gauge_Load (<[l := GaugeObj o]> st) (Addr l) = Returns (gauge_value o).
Proof. apply Gauge_Load_Returns. exists l, o. by rewrite lookup_insert_eq. Qed.

Lemma Gauge_Load_insert_ne (st : store) (l lg : loc) (o : object) :
  l ≠ lg -> Gauge_Load (<[l := o]> st) (Addr lg) = Gauge_Load st (Addr lg).
Proof.
  intros Hne. unfold Gauge_Load, atomic_Float64_Load, deref_gauge, deref.
  by rewrite lookup_insert_ne.
Qed.

Lemma Gauge_Set_at (st : store) (l : loc) (o : Gauge) (val : float) :
  st !! l = Some (GaugeObj o) ->
  Gauge_Set st (Addr l) val = Returns (<[l := GaugeObj (mkGauge (gauge_name o) val)]> st).
Proof.
  intros Hl. unfold Gauge_Set, atomic_Float64_Store. unfold_bind.
  by rewrite (deref_gauge_Addr _ _ _ Hl).
Qed.

Lemma Gauge_Name_insert (st : store) (l : loc) (o : Gauge) :
  Gauge_Name (<[l := GaugeObj o]> st) (Addr l) = Returns (gauge_name o).
Proof.
  unfold Gauge_Name. unfold_bind.
  by rewrite (deref_gauge_Addr _ l o) by apply lookup_insert_eq.
Qed.

(** X13. [Set] and [Load] are a round trip: on a gauge, [Set(val)]
    returns and [Load] and [Value] then read exactly [val], whatever the
    gauge held before, with the name kept; a later [Set] wins and leaves
    the store as if the earlier one had not happened, and setting the
    value the gauge already holds changes nothing in the store. *)
Theorem Gauge_Set_then_Load (st : store) (g : ptr) (old val : float) :
  Gauge_Load st g = Returns old ->
  ∃ st', Gauge_Set st g val = Returns st' ∧
         Gauge_Load st' g = Returns val ∧
         Gauge_Value st' g = Returns (Float64Val val) ∧
         Gauge_Name st' g = Gauge_Name st g ∧
         (∀ next, ∃ st'', Gauge_Set st' g next = Returns st'' ∧
                          Gauge_Set st g next = Returns st'' ∧
                          Gauge_Load st'' g = Returns next) ∧
         Gauge_Set st g old = Returns st.
Proof.
  intros Hload. apply Gauge_Load_Returns in Hload as (l & o & -> & Hl & <-).
  eexists. split; [by apply Gauge_Set_at |].
  split; [apply Gauge_Load_insert |]. split; [| split; [| split]].
  - unfold Gauge_Value, atomic_Float64_Load. unfold_bind.
    by rewrite (deref_gauge_Addr _ l (mkGauge (gauge_name o) val))
      by apply lookup_insert_eq.
  - rewrite Gauge_Name_insert. unfold Gauge_Name. unfold_bind.
    by rewrite (deref_gauge_Addr _ _ _ Hl).
  - intros next. eexists.
    split; [apply Gauge_Set_at, lookup_insert_eq |]. simpl.
    rewrite insert_insert_eq.
    split; [by apply Gauge_Set_at | apply Gauge_Load_insert].
  - rewrite (Gauge_Set_at st l o _ Hl). f_equal. apply insert_id.
    rewrite Hl. by destruct o.
Qed.

Lemma Gauge_Set_then_Load_witness :
  ∃ st', Gauge_Set example_heap (Addr 2) 20.5%float = Returns st' ∧
         Gauge_Load st' (Addr 2) = Returns 20.5%float ∧
         Gauge_Value st' (Addr 2) = Returns (Float64Val 20.5%float) ∧
         Gauge_Name st' (Addr 2) = Gauge_Name example_heap (Addr 2) ∧
         (∀ next, ∃ st'', Gauge_Set st' (Addr 2) next = Returns st'' ∧
                          Gauge_Set example_heap (Addr 2) next = Returns st'' ∧
                          Gauge_Load st'' (Addr 2) = Returns next) ∧
         Gauge_Set example_heap (Addr 2) 0%float = Returns example_heap.
Proof.
  apply (Gauge_Set_then_Load example_heap (Addr 2) 0%float 20.5%float).
  vm_compute. reflexivity.
Defined.

(** One call moves the reading of a gauge by what it does to that gauge. *)
Lemma exec_Gauge_Load (k : call) (s s' : state) (g : ptr) (x : float) :
  Gauge_Load (heap s) g = Returns x -> exec k s = Returns s' ->
  Gauge_Load (heap s') g = Returns (gauge_after g k x).
Proof.
  intros Hload Hexec. pose proof Hload as Hload'.
  apply Gauge_Load_Returns in Hload' as (lg & og & -> & Hlg & <-).
  destruct k; simpl in Hexec; unfold on_heap in Hexec; unfold_bind;
    try (match type of Hexec with
         | match ?x with _ => _ end = _ => destruct x eqn:Hcall; [| done]
         end);
    injection Hexec as <-; cbn [heap gauge_after]; try done.
  - rewrite Gauge_Load_insert_ne; [done | by eapply fresh_is_unused].
  - rewrite Gauge_Load_insert_ne; [done | by eapply fresh_is_unused].
  - apply atomic_Int64_Add_Returns in Hcall as (l & o & -> & Hl & ->).
    rewrite Gauge_Load_insert_ne; [done | congruence].
  - apply atomic_Int64_Add_Returns in Hcall as (l & o & -> & Hl & ->).
    rewrite Gauge_Load_insert_ne; [done | congruence].
  - apply atomic_Float64_Store_Returns in Hcall as (l & o & -> & Hl & ->).
    case_decide as Heq.
    + injection Heq as ->. by rewrite Gauge_Load_insert.
    + rewrite Gauge_Load_insert_ne; [done | congruence].
  - apply atomic_Float64_Add_Returns in Hcall as (l & o & -> & Hl & ->).
    case_decide as Heq.
    + injection Heq as ->. rewrite Hlg in Hl. injection Hl as <-.
      by rewrite Gauge_Load_insert.
    + rewrite Gauge_Load_insert_ne; [done | congruence].
  - apply atomic_Float64_Add_Returns in Hcall as (l & o & -> & Hl & ->).
    case_decide as Heq.
    + injection Heq as ->. rewrite Hlg in Hl. injection Hl as <-.
      by rewrite Gauge_Load_insert.
    + rewrite Gauge_Load_insert_ne; [done | congruence].
  - apply atomic_Float64_Add_Returns in Hcall as (l & o & -> & Hl & ->).
    case_decide as Heq.
    + injection Heq as ->. rewrite Hlg in Hl. injection Hl as <-.
      by rewrite Gauge_Load_insert.
    + rewrite Gauge_Load_insert_ne; [done | congruence].
  - destruct (Snapshot (heap s) (registry s)) as [[s2 st2] |] eqn:Hsnap; [| done].
    injection Hcall as <-. simpl.
    apply Snapshot_returns in Hsnap as (_ & l & -> & Hl & ->).
    rewrite Gauge_Load_insert_ne; [done | congruence].
  - apply Snapshot_assign_Returns in Hcall as (l & snap & -> & Hl & ->).
    rewrite Gauge_Load_insert_ne; [done | congruence].
Qed.

Lemma run_Gauge_Load (cs : list call) (s s' : state) (g : ptr) (x : float) :
  Gauge_Load (heap s) g = Returns x -> run cs s = Returns s' ->
  Gauge_Load (heap s') g = Returns (foldl (fun x k => gauge_after g k x) x cs).
Proof.
  revert s x. induction cs as [| k cs IH]; intros s x Hload; simpl.
  - by intros [= <-].
  - unfold_bind. destruct (exec k s) as [s1 |] eqn:Hexec; [| done].
    apply IH. by eapply exec_Gauge_Load.
Qed.

(** X14. A gauge reads what its own calls made of it: after any program
    that returns, [Load] is the old reading taken through the [Set],
    [Inc], [Dec] and [Add] calls on this gauge, in program order and in
    [float64] arithmetic, with no clamping of negative deltas; calls on
    other instruments, on the registry or on snapshots leave it alone, and
    after a [Set] nothing that came before matters. *)
Theorem gauge_reads_its_own_calls (cs : list call) (s s' : state) (g : ptr)
    (x : float) :
  Gauge_Load (heap s) g = Returns x -> run cs s = Returns s' ->
  Gauge_Load (heap s') g = Returns (foldl (fun x k => gauge_after g k x) x cs) ∧
  (Forall (fun k => receiver k ≠ Some g) cs -> Gauge_Load (heap s') g = Returns x) ∧
  (∀ before val after, cs = (before ++ CallGaugeSet g val :: after)%list ->
     Gauge_Load (heap s') g
       = Returns (foldl (fun x k => gauge_after g k x) val after)).
Proof.
  intros Hload Hrun.
  pose proof (run_Gauge_Load cs s s' g x Hload Hrun) as Hfinal.
  split; [done |]. split.
  - intros Hother. rewrite Hfinal. f_equal. clear Hfinal Hrun.
    induction Hother as [| k cs Hk _ IH]; simpl; [done |].
    rewrite <- IH at 2. f_equal.
    destruct k; simpl in *; try done; case_decide; congruence.
  - intros before val after ->. rewrite Hfinal, foldl_app. simpl.
    by rewrite decide_True.
Qed.

Lemma gauge_reads_its_own_calls_witness :
  let cs := [CallGaugeSet (Addr 2) 20.5%float; CallCounterInc (Addr 1);
             CallGaugeInc (Addr 2); CallSnapshot; CallGaugeAdd (Addr 2) (-2.5)%float] in
  ∃ s',
    run cs (mkState example_heap example_registry) = Returns s' ∧
    Gauge_Load (heap s') (Addr 2) = Returns 19%float ∧
    Gauge_Load (heap s') (Addr 2)
      = Returns (foldl (fun x k => gauge_after (Addr 2) k x) 0%float cs).
Proof.
  intros cs. eexists. split; [vm_compute; reflexivity |].
  split; [vm_compute; reflexivity |].
  refine (proj1 (gauge_reads_its_own_calls cs
                   (mkState example_heap example_registry) _ (Addr 2) 0%float _ _)).
  - vm_compute. reflexivity.
  - vm_compute. reflexivity.
Defined.

(** ** Balanced [Inc] and [Dec] *)

Lemma float_of_Z_succ (k : Z) :
  -50 <= k < 50 -> PrimFloat.add (float_of_Z k) 1%float = float_of_Z (k + 1).
Proof.
  intros Hk.
  assert (∃ n, (n < 100)%nat ∧ k = Z.of_nat n - 50) as (n & Hn & ->).
  { exists (Z.to_nat (k + 50)). lia. }
  do 100 (destruct n as [| n]; [vm_compute; reflexivity |]). lia.
Qed.

Lemma float_of_Z_pred (k : Z) :
  -50 < k <= 50 -> PrimFloat.add (float_of_Z k) (-1)%float = float_of_Z (k - 1).
Proof.
  intros Hk.
  assert (∃ n, (n < 100)%nat ∧ k = Z.of_nat n - 49) as (n & Hn & ->).
  { exists (Z.to_nat (k + 49)). lia. }
  do 100 (destruct n as [| n]; [vm_compute; reflexivity |]). lia.
Qed.

Lemma gauge_incs_nonneg (g : ptr) (cs : list call) : 0 <= gauge_incs g cs.
Proof.
  induction cs as [| k cs IH]; simpl; [lia |].
  destruct k; try done. case_decide; lia.
Qed.

Lemma gauge_decs_nonneg (g : ptr) (cs : list call) : 0 <= gauge_decs g cs.
Proof.
  induction cs as [| k cs IH]; simpl; [lia |].
  destruct k; try done. case_decide; lia.
Qed.

Lemma balanced_fold (g : ptr) (cs : list call) (k0 : Z) :
  Forall (fun k => ¬ sets_gauge g k) cs ->
  -50 <= k0 - gauge_decs g cs -> k0 + gauge_incs g cs <= 50 ->
  foldl (fun x k => gauge_after g k x) (float_of_Z k0) cs
  = float_of_Z (k0 + gauge_incs g cs - gauge_decs g cs).
Proof.
  intros Hquiet. revert k0.
  induction Hquiet as [| k cs Hk _ IH]; intros k0 Hlow Hhigh; simpl in *.
  - f_equal. lia.
  - pose proof (gauge_incs_nonneg g cs). pose proof (gauge_decs_nonneg g cs).
    destruct k; simpl in *; try (by apply IH); case_decide; try (by apply IH).
    + done.
    + rewrite float_of_Z_succ by lia. rewrite IH by lia. f_equal. lia.
    + rewrite float_of_Z_pred by lia. rewrite IH by lia. f_equal. lia.
    + done.
Qed.

(** X15. [Inc] and [Dec] count exactly on small integers, in every order
    and with any calls on other objects in between: for a gauge that
    starts at an integer [k0], with [k0] plus the number of [Inc] calls at
    most 50 and [k0] minus the number of [Dec] calls at least -50, and no
    [Set] or [Add] on it, the gauge ends at [k0] plus the number of [Inc]
    minus the number of [Dec]; so equally many of each bring it back to
    where it was. *)
Theorem balanced_Inc_and_Dec_cancel (cs : list call) (s s' : state) (g : ptr)
    (k0 : Z) :
  Gauge_Load (heap s) g = Returns (float_of_Z k0) ->
  Forall (fun k => ¬ sets_gauge g k) cs ->
  -50 <= k0 - gauge_decs g cs -> k0 + gauge_incs g cs <= 50 ->
  run cs s = Returns s' ->
  Gauge_Load (heap s') g
    = Returns (float_of_Z (k0 + gauge_incs g cs - gauge_decs g cs)) ∧
  (gauge_incs g cs = gauge_decs g cs ->
     Gauge_Load (heap s') g = Gauge_Load (heap s) g).
Proof.
  intros Hload Hquiet Hlow Hhigh Hrun.
  rewrite (run_Gauge_Load cs s s' g _ Hload Hrun), balanced_fold by done.
  split; [done |]. intros Heq. rewrite Hload. do 2 f_equal. lia.
Qed.

Lemma balanced_Inc_and_Dec_cancel_witness :
  let cs := [CallGaugeInc (Addr 2); CallGaugeDec (Addr 2); CallGaugeDec (Addr 2);
             CallCounterInc (Addr 1); CallGaugeInc (Addr 2)] in
  ∃ s',
    run cs (mkState example_heap example_registry) = Returns s' ∧
    Gauge_Load (heap s') (Addr 2)
      = Returns (float_of_Z (0 + gauge_incs (Addr 2) cs - gauge_decs (Addr 2) cs)) ∧
    (gauge_incs (Addr 2) cs = gauge_decs (Addr 2) cs ->
       Gauge_Load (heap s') (Addr 2) = Gauge_Load example_heap (Addr 2)).
Proof.
  intros cs. eexists. split; [vm_compute; reflexivity |].
  apply (balanced_Inc_and_Dec_cancel cs (mkState example_heap example_registry)
           _ (Addr 2) 0).
  - vm_compute. reflexivity.
  - unfold cs. repeat (apply Forall_cons_2; [simpl; tauto |]). apply Forall_nil_2.
  - vm_compute. discriminate.
  - vm_compute. discriminate.
  - vm_compute. reflexivity.
Defined.

(** * Further properties of pointers, types and errors *)

(** X16. The methods that read a field stand or fall together: [Name],
    [Load], [Value], [Inc] and [Add] of a counter (and [Name], [Load],
    [Value], [Set], [Inc], [Dec], [Add] of a gauge) return exactly when
    the pointer is the address of such an instrument, and panic on the nil
    pointer; [Type] reads no field and answers even then. *)
Theorem field_methods_need_an_instrument (st : store) (p : ptr) :
  (∀ delta,
     (returns (Counter_Name st p) ↔ returns (deref_counter st p)) ∧
     (returns (Counter_Load st p) ↔ returns (deref_counter st p)) ∧
     (returns (Counter_Value st p) ↔ returns (deref_counter st p)) ∧
     (returns (Counter_Inc st p) ↔ returns (deref_counter st p)) ∧
     (returns (Counter_Add st p delta) ↔ returns (deref_counter st p))) ∧
  (∀ val,
     (returns (Gauge_Name st p) ↔ returns (deref_gauge st p)) ∧
     (returns (Gauge_Load st p) ↔ returns (deref_gauge st p)) ∧
     (returns (Gauge_Value st p) ↔ returns (deref_gauge st p)) ∧
     (returns (Gauge_Set st p val) ↔ returns (deref_gauge st p)) ∧
     (returns (Gauge_Inc st p) ↔ returns (deref_gauge st p)) ∧
     (returns (Gauge_Dec st p) ↔ returns (deref_gauge st p)) ∧
     (returns (Gauge_Add st p val) ↔ returns (deref_gauge st p))) ∧
  (returns (deref_counter st p) ↔ ∃ l o, p = Addr l ∧ st !! l = Some (CounterObj o)) ∧
  (returns (deref_gauge st p) ↔ ∃ l o, p = Addr l ∧ st !! l = Some (GaugeObj o)) ∧
  ¬ returns (deref_counter st NilPtr) ∧ ¬ returns (deref_gauge st NilPtr) ∧
  Metric_Type (PtrCounter NilPtr) = Returns TypeCounter ∧
  Metric_Type (PtrGauge NilPtr) = Returns TypeGauge.
Proof.
  split; [| split; [| split; [| split]]].
  - intros delta.
    unfold Counter_Name, Counter_Load, Counter_Value, Counter_Inc, Counter_Add,
      atomic_Int64_Load, atomic_Int64_Add. unfold_bind.
    destruct (deref_counter st p) as [o |] eqn:Hd; [| done].
    apply deref_counter_Returns in Hd as (l & -> & Hl). by simpl.
  - intros val.
    unfold Gauge_Name, Gauge_Load, Gauge_Value, Gauge_Set, Gauge_Inc, Gauge_Dec,
      Gauge_Add, atomic_Float64_Load, atomic_Float64_Store, atomic_Float64_Add.
    unfold_bind.
    destruct (deref_gauge st p) as [o |] eqn:Hd; [| done].
    apply deref_gauge_Returns in Hd as (l & -> & Hl). by simpl.
  - destruct (deref_counter st p) as [o |] eqn:Hd; simpl.
    + apply deref_counter_Returns in Hd as (l & -> & Hl). split; eauto.
    + split; [done |]. intros (l & o & -> & Hl).
      by rewrite (deref_counter_Addr _ _ _ Hl) in Hd.
  - destruct (deref_gauge st p) as [o |] eqn:Hd; simpl.
    + apply deref_gauge_Returns in Hd as (l & -> & Hl). split; eauto.
    + split; [done |]. intros (l & o & -> & Hl).
      by rewrite (deref_gauge_Addr _ _ _ Hl) in Hd.
  - split; [by intros [] |]. split; [by intros [] |]. done.
Qed.

(** X17. [MetricType.String] names the two kinds and nothing else: it
    answers "counter" only for [TypeCounter], "gauge" only for
    [TypeGauge] and "unknown" for every other value, the zero value
    included; the [Type()] of a counter or gauge never prints as
    "unknown". *)
Theorem MetricType_String_names_the_kind :
  (∀ t, MetricType_String t = "counter" ↔ t = TypeCounter) ∧
  (∀ t, MetricType_String t = "gauge" ↔ t = TypeGauge) ∧
  (∀ t, MetricType_String t = "unknown" ↔ t ≠ TypeCounter ∧ t ≠ TypeGauge) ∧
  MetricType_String 0 = "unknown" ∧
  TypeCounter ≠ TypeGauge ∧
  (∀ m t, Metric_Type m = Returns t ->
     MetricType_String t ≠ "unknown" ∧
     (MetricType_String t = "counter" ↔ ∃ c, m = PtrCounter c) ∧
     (MetricType_String t = "gauge" ↔ ∃ g, m = PtrGauge g)).
Proof.
  assert (Hc : ∀ t, MetricType_String t = "counter" ↔ t = TypeCounter).
  { intros t. unfold MetricType_String. repeat case_decide; split; congruence. }
  assert (Hg : ∀ t, MetricType_String t = "gauge" ↔ t = TypeGauge).
  { intros t. unfold MetricType_String.
    repeat case_decide; split; try congruence; intros ->; done. }
  split; [done |]. split; [done |]. split; [| split; [done | split; [done |]]].
  - intros t. unfold MetricType_String. repeat case_decide; split;
      try congruence; try (by intros [? ?]); done.
  - intros m t Ht. destruct m as [| c | g]; simpl in Ht; [done | |];
      injection Ht as <-; (split; [done |]); split; split;
      try done; try (by intros [? ?]); eauto.
Qed.

(** X18. Callers can tell the registry's errors apart with [errors.Is]:
    an error of [Register] never is [ErrMetricNotFound]; it is
    [ErrInvalidMetricName] exactly when the metric's name is empty,
    [ErrDuplicateMetric] exactly when its name is not empty and indexed,
    and none of the three sentinels exactly when the metric is nil.  An
    error of [Unregister] is [ErrMetricNotFound] and neither of the other
    two, and its text ends with the name asked for. *)
Theorem registry_errors_are_told_apart :
  (∀ st r m e r', Register st r m = Returns (Some e, r') ->
     errors_Is e ErrMetricNotFound = false ∧
     (errors_Is e ErrInvalidMetricName = true ↔ Metric_Name st m = Returns "") ∧
     (errors_Is e ErrDuplicateMetric = true ↔
        ∃ name, name ≠ "" ∧ Metric_Name st m = Returns name ∧
                is_Some (entries r !! name) ∧
                Error e = "metric with this name already exists: " ++ name) ∧
     ((errors_Is e ErrInvalidMetricName = false ∧
       errors_Is e ErrDuplicateMetric = false) ↔ m = NilMetric)) ∧
  (∀ r name e, (Unregister r name).1 = Some e ->
     errors_Is e ErrMetricNotFound = true ∧
     errors_Is e ErrDuplicateMetric = false ∧
     errors_Is e ErrInvalidMetricName = false ∧
     Error e = "metric not found: " ++ name).
Proof.
  split.
  - intros st r m e r' Hreg.
    destruct (Register_returns st r m _ Hreg)
      as [[-> [= -> ->]] | [(Hm & Hname & [= -> ->]) |
          [(name & Hm & Hname & Hne & Hdup & [= -> ->]) |
           (name & _ & _ & _ & _ & [=])]]]; simpl.
    + split; [done |]. split; [done |]. split; [| done].
      split; [done |]. by intros (name & _ & ? & _).
    + split; [done |]. split; [done |]. split.
      * split; [done |]. intros (name & Hne & Hname' & _). congruence.
      * split; [by intros [? ?] | done].
    + split; [done |]. split; [| split].
      * split; [done |]. intros Hempty. congruence.
      * split; [| done]. intros _. exists name. by repeat split.
      * split; [by intros [? ?] | done].
  - intros r name e.
    destruct (entries r !! name) as [m |] eqn:Hlook.
    + by rewrite Unregister_present by eauto.
    + rewrite Unregister_absent by done. simpl. by intros [= <-].
Qed.

Lemma registry_errors_are_told_apart_witness :
  errors_Is (Errorf_w ErrDuplicateMetric "requests") ErrMetricNotFound = false ∧
  (errors_Is (Errorf_w ErrDuplicateMetric "requests") ErrInvalidMetricName = true ↔
     Metric_Name example_heap (PtrCounter (Addr 1)) = Returns "") ∧
  (errors_Is (Errorf_w ErrDuplicateMetric "requests") ErrDuplicateMetric = true ↔
     ∃ name, name ≠ "" ∧ Metric_Name example_heap (PtrCounter (Addr 1)) = Returns name ∧
             is_Some (entries example_registry !! name) ∧
             Error (Errorf_w ErrDuplicateMetric "requests")
               = "metric with this name already exists: " ++ name) ∧
  ((errors_Is (Errorf_w ErrDuplicateMetric "requests") ErrInvalidMetricName = false ∧
    errors_Is (Errorf_w ErrDuplicateMetric "requests") ErrDuplicateMetric = false) ↔
     PtrCounter (Addr 1) = NilMetric).
Proof.
  apply (proj1 registry_errors_are_told_apart example_heap example_registry
           (PtrCounter (Addr 1)) _ example_registry).
  vm_compute. reflexivity.
Defined.

(** ** Construction *)

Lemma alloc_leaves_the_rest (st : store) (o : object) :
  (∀ l o', st !! l = Some o' -> (alloc st o).2 !! l = Some o') ∧
  (∀ q, returns (deref st q) ->
     q ≠ (alloc st o).1 ∧ deref (alloc st o).2 q = deref st q) ∧
  (∀ m v, Metric_Value st m = Returns v ->
     Metric_Value (alloc st o).2 m = Returns v ∧
     m ≠ PtrCounter (alloc st o).1 ∧ m ≠ PtrGauge (alloc st o).1) ∧
  (∀ o2, (alloc (alloc st o).2 o2).1 ≠ (alloc st o).1).
Proof.
  destruct (alloc_spec st o) as (l & Halloc & Hfresh). rewrite Halloc. simpl.
  split; [| split; [| split]].
  - intros l' o' Hl'. rewrite lookup_insert_ne; [done | congruence].
  - intros q Hq. destruct q as [| lq]; [done |]. simpl in Hq.
    destruct (st !! lq) as [oq |] eqn:Hlq; [| done].
    split; [congruence |]. simpl. rewrite lookup_insert_ne; [| congruence].
    by rewrite Hlq.
  - intros m v Hv. split; [| split].
    + apply read_value_Some. rewrite read_value_insert_fresh; [| done |].
      * by apply read_value_Some.
      * apply read_value_Some in Hv. by rewrite Hv.
    + intros ->. simpl in Hv.
      unfold Counter_Value, atomic_Int64_Load, deref_counter, deref in Hv.
      unfold_bind. by rewrite Hfresh in Hv.
    + intros ->. simpl in Hv.
      unfold Gauge_Value, atomic_Float64_Load, deref_gauge, deref in Hv.
      unfold_bind. by rewrite Hfresh in Hv.
  - intros o2 [= Heq]. eapply fresh_is_unused; [| exact Heq].
    apply lookup_insert_eq.
Qed.

(** X19. A new instrument is never an old one: [NewCounter] and
    [NewGauge] leave every object of the store as it was, so every
    existing metric reads as before and is not the new pointer, and the
    next instrument constructed, even under the same name, is yet another
    pointer. *)
Theorem constructors_never_alias (name : string) (st : store) :
  ((∀ l o, st !! l = Some o -> (NewCounter name st).2 !! l = Some o) ∧
   (∀ m v, Metric_Value st m = Returns v ->
      Metric_Value (NewCounter name st).2 m = Returns v ∧
      m ≠ PtrCounter (NewCounter name st).1) ∧
   (∀ name2, (NewCounter name2 (NewCounter name st).2).1 ≠ (NewCounter name st).1 ∧
             (NewGauge name2 (NewCounter name st).2).1 ≠ (NewCounter name st).1)) ∧
  ((∀ l o, st !! l = Some o -> (NewGauge name st).2 !! l = Some o) ∧
   (∀ m v, Metric_Value st m = Returns v ->
      Metric_Value (NewGauge name st).2 m = Returns v ∧
      m ≠ PtrGauge (NewGauge name st).1) ∧
   (∀ name2, (NewCounter name2 (NewGauge name st).2).1 ≠ (NewGauge name st).1 ∧
             (NewGauge name2 (NewGauge name st).2).1 ≠ (NewGauge name st).1)).
Proof.
  unfold NewCounter, NewGauge. split.
  - destruct (alloc_leaves_the_rest st (CounterObj (mkCounter name 0)))
      as (Hold & _ & Hread & Hnext).
    split; [done |]. split; [| by split].
    intros m v Hv. by destruct (Hread m v Hv) as (? & ? & _).
  - destruct (alloc_leaves_the_rest st (GaugeObj (mkGauge name 0%float)))
      as (Hold & _ & Hread & Hnext).
    split; [done |]. split; [| by split].
    intros m v Hv. by destruct (Hread m v Hv) as (? & _ & ?).
Qed.

Lemma constructors_never_alias_witness :
  Metric_Value (NewCounter "requests" example_heap).2 (PtrCounter (Addr 1))
    = Returns (Int64Val 0) ∧
  PtrCounter (Addr 1) ≠ PtrCounter (NewCounter "requests" example_heap).1.
Proof.
  destruct (constructors_never_alias "requests" example_heap)
    as ((_ & Hread & _) & _).
  apply (Hread (PtrCounter (Addr 1)) (Int64Val 0)).
  vm_compute. reflexivity.
Defined.
